(** * The schema-migration runner of whatsapp-bridge (migrations.go)

    A shallow embedding of [MigrationManager] and of the part of its
    environment it talks to: the [migrations] directory, the SQL database
    behind [*sql.DB], and standard output.

    - Go's [int] is the 64-bit signed integer; versions are in [Z] and the
      range check of [strconv.Atoi] is written out.
    - Go strings are byte strings: [string] of Rocq.
    - A Go [error] is represented by its message; [nil] is [None].
    - [appliedMap] is a [gmap Z bool]; reading a missing key gives [false].
    - What the SQL of a migration does is not the program's: the
      development is parametric in it. *)

From Stdlib Require Import ZArith Ascii String DecimalString DecimalPos.
From Stdlib Require Import Sorting.Sorted Sorting.Permutation.
From stdpp Require Import base tactics option list strings gmap sorting.

Local Open Scope Z_scope.

(** ** Library functions the program calls *)

(** [strings.SplitN(s, sep, 2)] for a one-byte separator: [cut] finds the
    first separator, and at most two pieces are produced. *)
Fixpoint cut (sep : ascii) (s : string) : option (string * string) :=
  match s with
  | EmptyString => None
  | String c s' =>
      if Ascii.eqb c sep then Some (EmptyString, s')
      else match cut sep s' with
           | Some (a, b) => Some (String c a, b)
           | None => None
           end
  end.

Definition SplitN2 (s : string) (sep : ascii) : list string :=
  match cut sep s with
  | Some (a, b) => [a; b]
  | None => [s]
  end.

(** [strings.HasSuffix] and [strings.TrimSuffix]. *)
Definition HasSuffix (s suffix : string) : bool :=
  let n := String.length s in
  let k := String.length suffix in
  (k <=? n)%nat && String.eqb (substring (n - k) k s) suffix.

Definition TrimSuffix (s suffix : string) : string :=
  if HasSuffix s suffix
  then substring 0 (String.length s - String.length suffix) s
  else s.

(** [strconv.Atoi]: an optional sign, then one or more decimal digits; the
    value has to fit the 64-bit [int]. [None] stands for a non-nil error. *)
Definition digit_of (c : ascii) : option Z :=
  let n := Z.of_N (N_of_ascii c) - 48 in
  if (0 <=? n) && (n <=? 9) then Some n else None.

Fixpoint parse_digits (s : string) (acc : Z) : option Z :=
  match s with
  | EmptyString => Some acc
  | String c s' =>
      match digit_of c with
      | Some d => parse_digits s' (acc * 10 + d)
      | None => None
      end
  end.

Definition min_int : Z := - 2 ^ 63.

Definition max_int : Z := 2 ^ 63 - 1.

Definition is_sign (c : ascii) : bool :=
  Ascii.eqb c "-"%char || Ascii.eqb c "+"%char.

Definition Atoi (s : string) : option Z :=
  match s with
  | EmptyString => None
  | String c rest =>
      let digits := if is_sign c then rest else s in
      match digits with
      | EmptyString => None
      | _ =>
          match parse_digits digits 0 with
          | None => None
          | Some n =>
              let v := if Ascii.eqb c "-"%char then - n else n in
              if (min_int <=? v) && (v <=? max_int) then Some v else None
          end
      end
  end.

(** The [%d] verb of [fmt]. *)
Definition Itoa (z : Z) : string := NilZero.string_of_int (Z.to_int z).

(** Insertion sort as the [sort] package runs it on a short slice: each
    element sinks from the right end of the sorted prefix while it is
    [less] than its left neighbour. The prefix is kept reversed.
    [sort.Slice] sorts slices of at most 12 elements this way; on longer
    ones the order of elements that compare equal is up to the library. *)
Section InsertionSort.

Context {A : Type} (less : A -> A -> bool).

Fixpoint sink (x : A) (rprefix : list A) : list A :=
  match rprefix with
  | [] => [x]
  | y :: r => if less x y then y :: sink x r else x :: y :: r
  end.

Fixpoint insertion_sort_from (rprefix : list A) (data : list A) : list A :=
  match data with
  | [] => reverse rprefix
  | x :: rest => insertion_sort_from (sink x rprefix) rest
  end.

Definition insertion_sort (data : list A) : list A :=
  insertion_sort_from [] data.

End InsertionSort.

(** Sorting with [less a b := key a < key b] for an integer key. *)
Definition key_less {A : Type} (key : A -> Z) (a b : A) : bool := key a <? key b.

Definition key_le {A : Type} (key : A -> Z) (a b : A) : Prop := key a <= key b.

(** [sep] does not occur in [s]. *)
Definition no_sep (sep : ascii) (s : string) : Prop :=
  forall a b, s <> a +:+ String sep b.


(** [a] does not come after [b] in the order of [less]. *)
Definition not_after {A : Type} (less : A -> A -> bool) (a b : A) : Prop :=
  less b a = false.

(** A rearrangement of a slice: element [i mod length] is taken out and put
    first, for each [i] of [picks] in turn; what is left keeps its order.
    Every permutation of the slice is [shuffle picks] for some [picks]. *)
Fixpoint shuffle {A : Type} (picks : list nat) (l : list A) : list A :=
  match picks with
  | [] => l
  | i :: picks' =>
      let k := (i mod length l)%nat in
      match l !! k with
      | Some x => x :: shuffle picks' (delete k l)
      | None => l
      end
  end.

(** ** Data model *)

(** [type Migration struct]. *)
Record Migration := mkMigration {
  Version : Z;
  Name : string;
  SQL : string;
}.

(** A Go [error]: its message, or [None] for [nil]. *)
Abbreviation error := (option string).

(** [fmt.Errorf(prefix + ": %w", err)]: the message of the wrapped error
    follows the prefix. *)
Definition wrap (prefix : string) (err : string) : string :=
  prefix +:+ ": " +:+ err.

(** *** The migrations directory *)

Inductive read_result :=
| ReadOk (content : string)
| ReadErr (err : string).

(** A directory entry and what [ioutil.ReadFile] gives for it. *)
Record File := mkFile {
  file_name : string;
  file_data : read_result;
}.

(** [filepath.Glob("migrations/*.sql")]: the entries of the directory
    whose name ends in [.sql], in the lexical order of their names. The
    constant pattern is well formed, so [Glob] returns no error. *)
Definition name_less (f g : File) : bool :=
  String.ltb (file_name f) (file_name g).

Definition Glob (dir : list File) : list File :=
  filter (fun f => Is_true (HasSuffix (file_name f) ".sql"))
         (insertion_sort name_less dir).

(** *** The database behind [*sql.DB]

    The program sends four kinds of statement: the three of its own, and
    the bodies of the migrations, which are arbitrary SQL. *)
Inductive Call :=
| CreateTable
| SelectVersions
| RunScript (sql : string)
| InsertRecord (version : Z) (name : string).

Abbreviation Event := (Call * error)%type.

(** A row of the bookkeeping table. The column [applied_at] is filled in
    by the database and never read by the program; it is left out. *)
Abbreviation Row := (Z * string)%type.

(** What can go wrong outside the program and outside SQL: a call fails
    with an error of the driver (a locked or unreachable database, a full
    disk), or the iteration over the rows of a query stops early. The
    program never calls [rows.Err()], so a read that was cut short looks
    to it like a complete one. *)
Inductive Fault :=
| Fail (e : string)
| Cut (k : nat).

(** What the program does not determine. The database holds, besides the
    bookkeeping table, the application's own tables: [App]. A migration
    body is SQL text of any content: [run_sql] says what the database
    answers and what becomes of the application's tables and of the rows
    of the bookkeeping table, which a body can change, create or drop like
    any other table. A body that fails half way keeps what it already did,
    since nothing runs in a transaction. The columns and the key of the
    bookkeeping table are those that [InitMigrationTable] declares; what
    is proved from the key is stated for bodies that leave the table as
    it is. [tie_order] is the choice the [sort] package makes among equal
    versions in a long slice. *)
Class Runtime := mkRuntime {
  App : Type;
  run_sql : string -> App -> option (list Row) ->
            error * (App * option (list Row));
  tie_order : list Migration -> list nat;
}.

(** *** State passing *)

Definition ret {S A : Type} (a : A) : S -> A * S := fun w => (a, w).

Definition bind {S A B : Type} (c : S -> A * S) (k : A -> S -> B * S)
    : S -> B * S :=
  fun w => let (a, w1) := c w in k a w1.

Notation "'let*' x ':=' c 'in' k" := (bind c (fun x => k))
  (at level 10, x pattern, c at level 100, k at level 200).

Definition no_such_table : string := "no such table: migrations".

Definition unique_failed : string := "UNIQUE constraint failed: migrations.version".

(** The three ways through [ApplyMigration]. *)
Inductive Outcome :=
| Applied
| BodyFailed (e : string)
| RecordFailed (e : string).

(** The operations of the applier. *)
Inductive Op :=
| OpInit
| OpGetApplied
| OpLoad (dir : list File)
| OpApply (m : Migration)
| OpRun (dir : list File).

(** [strings.Contains]. *)
Fixpoint contains (s substr : string) : bool :=
  if String.prefix substr s then true
  else match s with
       | EmptyString => false
       | String _ s' => contains s' substr
       end.

Section Program.

Context {R : Runtime}.

(** The world the program runs in: the database (the application's tables
    and the bookkeeping table, absent until created), a log of every
    statement the database was sent with its outcome, the script of the
    faults to come (each call takes the next entry), and standard
    output. *)
Record World := mkWorld {
  app : App;
  table : option (list Row);
  log : list Event;
  faults : list (option Fault);
  stdout : list string;
}.

Definition rows (w : World) : list Row := default [] (table w).

Definition versions (w : World) : list Z := fst <$> rows w.

Definition M (A : Type) : Type := World -> A * World.

(** One call to the driver: the next entry of the script is consumed and
    the call is logged with its outcome. A call that fails in the driver
    changes nothing; otherwise [run] says what the statement does. *)
Definition driver_call {A} (c : Call) (failed : string -> A)
    (run : App -> option (list Row) -> (A * error) * (App * option (list Row)))
    : M A :=
  fun w =>
    let fs := tail (faults w) in
    match head (faults w) with
    | Some (Some (Fail e)) =>
        (failed e,
         mkWorld (app w) (table w) (log w ++ [(c, Some e)]) fs (stdout w))
    | _ =>
        let '((a, outcome), (ap, t)) := run (app w) (table w) in
        (a, mkWorld ap t (log w ++ [(c, outcome)]) fs (stdout w))
    end.

(** [CREATE TABLE IF NOT EXISTS migrations (...)]. *)
Definition exec_create_table : M error :=
  driver_call CreateTable Some
    (fun a t => ((None, None), (a, Some (default [] t)))).

(** [SELECT version FROM migrations ORDER BY version], with the loop over
    [rows.Next()]: [version] is an integer column, every row scans. When
    the iteration stops after [k] rows, the loop ends as it does after the
    last row. *)
Definition query_versions : M (string + list Z) :=
  fun w =>
    let cut_short :=
      match head (faults w) with
      | Some (Some (Cut k)) => take k
      | _ => fun scanned => scanned
      end in
    driver_call SelectVersions inl
      (fun a t =>
         match t with
         | None => ((inl no_such_table, Some no_such_table), (a, t))
         | Some rs =>
             ((inr (cut_short (insertion_sort Z.ltb (fst <$> rs))), None), (a, t))
         end) w.

(** [Exec(migration.SQL)]. *)
Definition exec_script (sql : string) : M error :=
  driver_call (RunScript sql) Some
    (fun a t => let '(outcome, state) := run_sql sql a t in
                ((outcome, outcome), state)).

(** [INSERT INTO migrations (version, name) VALUES (?, ?)]; [version] is
    the primary key. *)
Definition exec_insert (version : Z) (name : string) : M error :=
  driver_call (InsertRecord version name) Some
    (fun a t => match t with
                | None => ((Some no_such_table, Some no_such_table), (a, t))
                | Some rs =>
                    if bool_decide (version ∈ (fst <$> rs))
                    then ((Some unique_failed, Some unique_failed), (a, t))
                    else ((None, None), (a, Some (rs ++ [(version, name)])))
                end).

(** [fmt.Println], and [fmt.Printf] of one line. *)
Definition Println (line : string) : M unit :=
  fun w => (tt, mkWorld (app w) (table w) (log w) (faults w) (stdout w ++ [line])).

(** ** The program *)

(** [func (mm *MigrationManager) InitMigrationTable() error]. *)
Definition InitMigrationTable : M error := exec_create_table.

(** [func (mm *MigrationManager) GetAppliedMigrations() ([]int, error)]. *)
Definition GetAppliedMigrations : M (list Z * error) :=
  let* r := query_versions in
  match r with
  | inl e => ret ([], Some e)
  | inr scanned =>
      ret (fold_left (fun versions version => versions ++ [version]) scanned [],
           None)
  end.

(** The body of the loop over the globbed files: [inl] is a read failure
    (the function returns it), [inr] the slice after this file. *)
Definition load_file (migrations : list Migration) (file : File)
    : string + list Migration :=
  let filename := file_name file in
  match SplitN2 filename "_" with
  | [prefix; rest] =>
      match Atoi prefix with
      | None => inr migrations
      | Some version =>
          match file_data file with
          | ReadErr e =>
              inl (wrap ("failed to read migration file migrations/" +:+ filename) e)
          | ReadOk content =>
              let name := TrimSuffix rest ".sql" in
              inr (migrations ++ [mkMigration version name content])
          end
      end
  | _ => inr migrations
  end.

Fixpoint load_files (migrations : list Migration) (files : list File)
    : string + list Migration :=
  match files with
  | [] => inr migrations
  | file :: rest =>
      match load_file migrations file with
      | inl e => inl e
      | inr migrations' => load_files migrations' rest
      end
  end.

Definition version_less (a b : Migration) : bool := Version a <? Version b.

(** [sort.Slice(migrations, less)]. The library sorts a slice of at most
    12 elements by insertion, which keeps elements that compare equal in
    their order. A longer slice is sorted by an algorithm that is not
    stable: the result is sorted, and the order among equal versions is
    the library's; any such result is the insertion sort of some
    rearrangement of the slice. *)
Definition sort_Slice (migrations : list Migration) : list Migration :=
  if (length migrations <=? 12)%nat
  then insertion_sort version_less migrations
  else insertion_sort version_less (shuffle (tie_order migrations) migrations).

(** [func (mm *MigrationManager) LoadMigrations() ([]Migration, error)]. *)
Definition LoadMigrations (dir : list File) : list Migration * error :=
  match load_files [] (Glob dir) with
  | inl e => ([], Some e)
  | inr migrations => (sort_Slice migrations, None)
  end.

(** [func (mm *MigrationManager) ApplyMigration(migration Migration) error]. *)
Definition apply_failed (m : Migration) (e : string) : string :=
  wrap ("failed to apply migration " +:+ Itoa (Version m) +:+ " (" +:+ Name m +:+ ")") e.

Definition record_failed (m : Migration) (e : string) : string :=
  wrap ("failed to record migration " +:+ Itoa (Version m)) e.

Definition ApplyMigration (migration : Migration) : M error :=
  let* err := exec_script (SQL migration) in
  match err with
  | Some e => ret (Some (apply_failed migration e))
  | None =>
      let* err := exec_insert (Version migration) (Name migration) in
      match err with
      | Some e => ret (Some (record_failed migration e))
      | None =>
          let* _ := Println ("Applied migration " +:+ Itoa (Version migration)
                             +:+ ": " +:+ Name migration) in
          ret None
      end
  end.

(** [appliedMap[version]]: a missing key reads as [false]. *)
Definition is_applied (appliedMap : gmap Z bool) (version : Z) : bool :=
  default false (appliedMap !! version).

(** The loop [for _, migration := range migrations] of [RunMigrations]. *)
Fixpoint apply_pending (appliedMap : gmap Z bool) (migrations : list Migration)
    (appliedCount : Z) : M (Z * error) :=
  match migrations with
  | [] => ret (appliedCount, None)
  | migration :: rest =>
      if negb (is_applied appliedMap (Version migration))
      then
        let* err := ApplyMigration migration in
        match err with
        | Some e => ret (appliedCount, Some e)
        | None => apply_pending appliedMap rest (appliedCount + 1)
        end
      else apply_pending appliedMap rest appliedCount
  end.

Definition make_appliedMap (appliedVersions : list Z) : gmap Z bool :=
  fold_left (fun m version => <[version := true]> m) appliedVersions ∅.

(** [func (mm *MigrationManager) RunMigrations() error]. *)
Definition RunMigrations (dir : list File) : M error :=
  let* err := InitMigrationTable in
  match err with
  | Some e => ret (Some (wrap "failed to initialize migration table" e))
  | None =>
      let* (appliedVersions, err) := GetAppliedMigrations in
      match err with
      | Some e => ret (Some (wrap "failed to get applied migrations" e))
      | None =>
          let appliedMap := make_appliedMap appliedVersions in
          let '(migrations, err) := LoadMigrations dir in
          match err with
          | Some e => ret (Some (wrap "failed to load migrations" e))
          | None =>
              let* (appliedCount, err) := apply_pending appliedMap migrations 0 in
              match err with
              | Some e => ret (Some e)
              | None =>
                  let* _ :=
                    if appliedCount =? 0
                    then Println "No pending migrations to apply"
                    else Println ("Applied " +:+ Itoa appliedCount
                                  +:+ " migrations successfully") in
                  ret None
              end
          end
      end
  end.

(** ** What one call of [ApplyMigration] does *)

Definition row_of (m : Migration) : Row := (Version m, Name m).

Definition line_of (m : Migration) : string :=
  "Applied migration " +:+ Itoa (Version m) +:+ ": " +:+ Name m.

(** The statements sent to the database, with their outcomes. *)
Definition events_of (m : Migration) (o : Outcome) : list Event :=
  match o with
  | Applied =>
      [(RunScript (SQL m), None); (InsertRecord (Version m) (Name m), None)]
  | BodyFailed e => [(RunScript (SQL m), Some e)]
  | RecordFailed e =>
      [(RunScript (SQL m), None); (InsertRecord (Version m) (Name m), Some e)]
  end.

Definition error_of (m : Migration) (o : Outcome) : error :=
  match o with
  | Applied => None
  | BodyFailed e => Some (apply_failed m e)
  | RecordFailed e => Some (record_failed m e)
  end.

(** Which way a call goes: what the database answers to the body, and
    then to the insert. *)
Definition outcome_of (m : Migration) (w : World) : Outcome :=
  match exec_script (SQL m) w with
  | (Some e, _) => BodyFailed e
  | (None, w1) =>
      match exec_insert (Version m) (Name m) w1 with
      | (Some e, _) => RecordFailed e
      | (None, _) => Applied
      end
  end.

(** The body leaves the bookkeeping table as it is, in whatever state of
    the database it is executed. *)
Definition keeps_table (sql : string) : Prop :=
  forall a t, (run_sql sql a t).2.2 = t.


(** ** What the loop of [RunMigrations] does *)

(** The migrations the loop does not skip, in the order it meets them. *)
Definition pending (appliedMap : gmap Z bool) (ms : list Migration)
    : list Migration :=
  filter (fun m => is_applied appliedMap (Version m) = false) ms.

(** The same, from the versions that were read. *)
Definition pending_of (applied : list Z) (ms : list Migration)
    : list Migration :=
  filter (fun m => Version m ∉ applied) ms.

Definition applied_events (ms : list Migration) : list Event :=
  flat_map (fun m => events_of m Applied) ms.

(** ** What [RunMigrations] does *)

Definition summary_line (appliedCount : Z) : string :=
  if appliedCount =? 0 then "No pending migrations to apply"
  else "Applied " +:+ Itoa appliedCount +:+ " migrations successfully".

Definition with_line (line : string) (w : World) : World :=
  mkWorld (app w) (table w) (log w) (faults w) (stdout w ++ [line]).

(** The statements the database saw during the run. *)
Definition run_events (dir : list File) (w : World) : list Event :=
  drop (length (log w)) (log (RunMigrations dir w).2).

(** The calls of [ApplyMigration] in a run, read off the statements the
    database saw: each call sends the body of its migration first. *)
Definition attempt_events (attempts : list (Migration * Outcome)) : list Event :=
  flat_map (fun a => events_of a.1 a.2) attempts.

Definition is_prologue_event (ev : Event) : Prop :=
  ev.1 = CreateTable \/ ev.1 = SelectVersions.

Definition scripts_run (evs : list Event) : list string :=
  omap (fun ev => match ev.1 with RunScript sql => Some sql | _ => None end) evs.

(** No failure outside SQL is to come: no call fails in the driver and no
    read is cut short. What the database answers is then a matter of the
    statements and of its state alone. *)
Definition no_faults (w : World) : Prop :=
  Forall (fun f => f = None) (faults w).

(** The call that comes after [n] other calls is not a read that is cut
    short. *)
Definition reads_all (n : nat) (w : World) : Prop :=
  forall k, faults w !! n <> Some (Some (Cut k)).

(** ** What [LoadMigrations] does *)

(** The name of a source parses: it has an underscore, and what comes
    before the first one is accepted by [Atoi]. *)
Definition parses (filename : string) : bool :=
  match SplitN2 filename "_" with
  | [prefix; rest] => bool_decide (is_Some (Atoi prefix))
  | _ => false
  end.

(** What a readable source whose name parses adds to the slice. *)
Definition migration_of (file : File) : option Migration :=
  match SplitN2 (file_name file) "_" with
  | [prefix; rest] =>
      match Atoi prefix, file_data file with
      | Some version, ReadOk content =>
          Some (mkMigration version (TrimSuffix rest ".sql") content)
      | _, _ => None
      end
  | _ => None
  end.

Definition readable (file : File) : Prop :=
  exists content, file_data file = ReadOk content.

Definition is_sql (file : File) : Prop :=
  Is_true (HasSuffix (file_name file) ".sql").

(** ** Records follow executed bodies *)

(** The operations as steps on the world. *)
Definition step (op : Op) (w : World) : World :=
  match op with
  | OpInit => (InitMigrationTable w).2
  | OpGetApplied => (GetAppliedMigrations w).2
  | OpLoad dir => let _ := LoadMigrations dir in w
  | OpApply m => (ApplyMigration m w).2
  | OpRun dir => (RunMigrations dir w).2
  end.

(** The migrations an operation is given: the argument of
    [ApplyMigration], the sources [RunMigrations] loads. *)
Definition given (op : Op) (m : Migration) : Prop :=
  match op with
  | OpApply m' => m = m'
  | OpRun dir => m ∈ (LoadMigrations dir).1
  | _ => False
  end.

(** Every insert the database was sent is the insert of a migration of
    [known], and comes right after the body of that migration ran without
    error. *)
Definition guarded (known : Migration -> Prop) (l : list Event) : Prop :=
  forall i v n o,
    l !! i = Some (InsertRecord v n, o) ->
    exists j m,
      i = S j /\ known m /\ v = Version m /\ n = Name m /\
      l !! j = Some (RunScript (SQL m), None).

(** The body of [m] ran without error and its row was inserted right
    after. *)
Definition applied_in (l : list Event) (m : Migration) : Prop :=
  exists l1 l2, l = l1 ++ events_of m Applied ++ l2.

(** No row without its body executed: each row of the bookkeeping table is
    the row of a migration of [known] whose body ran without error right
    before the row was inserted. *)
Definition recorded_after_body (known : Migration -> Prop) (w : World) : Prop :=
  forall row, row ∈ rows w ->
    exists m, known m /\ row_of m = row /\ applied_in (log w) m.


(** ** A record insert that fails *)


(** ** The errors that are returned *)

(** The message names the version and the name of the migration. *)
Definition carries_context (m : Migration) (e : string) : Prop :=
  contains e (Itoa (Version m)) = true /\ contains e (Name m) = true.

(** C9 as the specification states it, for [ApplyMigration]. *)
Definition apply_errors_carry_context (m : Migration) (w : World) : Prop :=
  forall e, (ApplyMigration m w).1 = Some e -> carries_context m e.

(** ** Applying a migration that is already recorded *)


(** ** Running twice *)


(** ** The order of the visits *)

(** C6 as the specification states it: the migrations whose bodies the run
    sends, taken in the order of the loaded list, have strictly ascending
    versions. *)
Definition visits_strictly_ascending (dir : list File) (w : World) : Prop :=
  forall visited,
    visited `sublist_of` (LoadMigrations dir).1 ->
    scripts_run (run_events dir w) = SQL <$> visited ->
    StronglySorted Z.lt (Version <$> visited).

(** ** Discovery *)

(** C7 as the specification states it: loaded versions are non-negative. *)
Definition versions_nonnegative (dir : list File) : Prop :=
  forall m, m ∈ (LoadMigrations dir).1 -> 0 <= Version m.

End Program.

(** ** A database for the examples

    The application has one table, [messages]; the state of the
    application's part of the database is the list of the columns a body
    has added to it, or [None] once the table is dropped. The database
    knows the few statements of the examples, and answers them as SQLite
    does; it refuses every other text as a syntax error. The [sort]
    package keeps the order of equal versions. *)

(** [s] without the prefix, when it has it. *)
Definition after_prefix (prefix s : string) : option string :=
  if String.prefix prefix s
  then Some (substring (String.length prefix)
                       (String.length s - String.length prefix) s)
  else None.

(** The double quote. *)
Definition quote : string := String "034" EmptyString.

Definition first_word (s : string) : string :=
  match cut " " s with
  | Some (word, _) => word
  | None => s
  end.

Definition small_sql (sql : string) (messages : option (list string))
    (t : option (list Row))
    : error * (option (list string) * option (list Row)) :=
  if String.prefix "SELECT " sql then (None, (messages, t))
  else if String.eqb sql "DROP TABLE messages;" then
    match messages with
    | None => (Some "no such table: messages", (messages, t))
    | Some _ => (None, (None, t))
    end
  else if String.eqb sql "DELETE FROM migrations;" then
    match t with
    | None => (Some no_such_table, (messages, t))
    | Some _ => (None, (messages, Some []))
    end
  else if String.eqb sql "INSERT INTO migrations (version, name) VALUES (2, 'ghost');" then
    match t with
    | None => (Some no_such_table, (messages, t))
    | Some rs =>
        if bool_decide (2 ∈ (fst <$> rs))
        then (Some unique_failed, (messages, t))
        else (None, (messages, Some (rs ++ [(2, "ghost")])))
    end
  else
    match after_prefix "ALTER TABLE messages ADD COLUMN " sql with
    | Some rest =>
        let column := first_word rest in
        match messages with
        | None => (Some "no such table: messages", (messages, t))
        | Some columns =>
            if bool_decide (column ∈ columns)
            then (Some ("duplicate column name: " +:+ column), (messages, t))
            else (None, (Some (columns ++ [column]), t))
        end
    | None =>
        (Some ("near " +:+ quote +:+ first_word sql +:+ quote +:+ ": syntax error"),
         (messages, t))
    end.

Definition small_db : Runtime :=
  mkRuntime (option (list string)) small_sql (fun _ => []).

Abbreviation SmallWorld := (@World small_db).

Abbreviation small_world := (@mkWorld small_db).

(** ** Inputs used in examples *)

Definition add_a : string := "ALTER TABLE messages ADD COLUMN a TEXT;".

Definition add_b : string := "ALTER TABLE messages ADD COLUMN b TEXT;".

Definition add_c : string := "ALTER TABLE messages ADD COLUMN c TEXT;".

(** The table [messages] without added columns, no bookkeeping table,
    no fault to come. *)
Definition fresh : SmallWorld := small_world (Some []) None [] [] [].

(** Three sources out of order, a file that is no [.sql] source, and an
    unreadable file whose name does not parse. *)
Definition dir123 : list File :=
  [ mkFile "003_c.sql" (ReadOk add_c);
    mkFile "001_a.sql" (ReadOk add_a);
    mkFile "notes.txt" (ReadOk "n");
    mkFile "002_b.sql" (ReadOk add_b);
    mkFile "x_y.sql" (ReadErr "permission denied") ].

Definition m1 : Migration := mkMigration 1 "a" add_a.

Definition m2 : Migration := mkMigration 2 "b" add_b.

Definition m3 : Migration := mkMigration 3 "c" add_c.

(** Version 2 is recorded. *)
Definition world2 : SmallWorld := small_world (Some ["b"]) (Some [(2, "b")]) [] [] [].

(** The fifth statement sent to the database fails in the driver. *)
Definition world_failing_2 : SmallWorld :=
  small_world (Some []) None []
          [None; None; None; None; Some (Fail "database is locked")] [].

(** Version 1 is recorded. *)
Definition world_with_1 : SmallWorld :=
  small_world (Some ["a"]) (Some [(1, "a")]) [] [] [].

(** Two sources with version 1. *)
Definition dir_dup : list File :=
  [ mkFile "1_a.sql" (ReadOk add_a); mkFile "01_b.sql" (ReadOk add_b) ].

(** The second statement sent to the database fails in the driver. *)
Definition world_disk_full : SmallWorld :=
  small_world (Some []) (Some []) [] [None; Some (Fail "disk full")] [].


(** The migration of the repository, its body cut down to the first
    statement. *)
Definition add_starred_column : Migration :=
  mkMigration 1 "add_starred_column"
    "ALTER TABLE messages ADD COLUMN starred BOOLEAN DEFAULT FALSE;".

(** The migration of the repository is recorded, and the column is
    there. *)
Definition world_starred : SmallWorld :=
  small_world (Some ["starred"]) (Some [(1, "add_starred_column")]) [] [] [].

(** A source with a signed prefix. *)
Definition dir_negative : list File :=
  [ mkFile "-5_down.sql" (ReadOk "DROP TABLE messages;") ].

(** The migrations directory of the repository. *)
Definition dir_repo : list File :=
  [ mkFile "001_add_starred_column.sql" (ReadOk (SQL add_starred_column)) ].

(** A readable source and one that cannot be read. *)
Definition dir_unreadable : list File :=
  [ mkFile "001_a.sql" (ReadOk add_a);
    mkFile "002_b.sql" (ReadErr "permission denied") ].

(** A migration whose body writes a row of the bookkeeping table. *)
Definition seed : Migration :=
  mkMigration 1 "seed"
    "INSERT INTO migrations (version, name) VALUES (2, 'ghost');".

(** A migration whose body empties the bookkeeping table. *)
Definition wipe : Migration := mkMigration 2 "wipe" "DELETE FROM migrations;".

Definition dir_wipe : list File :=
  [ mkFile "001_a.sql" (ReadOk "SELECT 1;");
    mkFile "002_wipe.sql" (ReadOk (SQL wipe)) ].

(** A migration with a body that can run any number of times. *)
Definition probe : Migration := mkMigration 1 "probe" "SELECT 1;".


(** The bookkeeping table is there and empty. *)
Definition empty_table : SmallWorld := small_world (Some []) (Some []) [] [] [].


(** Versions 3 and 1 are recorded; the next read stops after one row. *)
Definition world_cut_read : SmallWorld :=
  small_world (Some []) (Some [(3, "c"); (1, "a")]) [] [Some (Cut 1)] [].

(** * Properties *)

(** ** The model at work *)

Example SplitN2_ex1 : SplitN2 "001_add_starred_column.sql" "_" = ["001"; "add_starred_column.sql"].
Proof. reflexivity. Qed.

Example SplitN2_ex2 : SplitN2 "readme.sql" "_" = ["readme.sql"].
Proof. reflexivity. Qed.

Example TrimSuffix_ex : TrimSuffix "add_starred_column.sql" ".sql" = "add_starred_column".
Proof. reflexivity. Qed.

Example Atoi_ex1 : Atoi "001" = Some 1.
Proof. reflexivity. Qed.

Example Atoi_ex2 : Atoi "-5" = Some (-5).
Proof. reflexivity. Qed.

Example Atoi_ex3 : Atoi "9223372036854775808" = None.
Proof. reflexivity. Qed.

Example Atoi_ex4 : Atoi "+" = None /\ Atoi "1a" = None /\ Atoi EmptyString = None.
Proof. repeat split; reflexivity. Qed.

Example Atoi_ex5 :
  Atoi "9223372036854775807" = Some max_int /\
  Atoi "-9223372036854775808" = Some min_int /\
  Atoi "+7" = Some 7 /\ Atoi "0" = Some 0.
Proof. repeat split; reflexivity. Qed.

Example Itoa_ex : Itoa 42 = "42" /\ Itoa (-5) = "-5" /\ Itoa 0 = "0".
Proof. repeat split; reflexivity. Qed.

Example sort_ex : insertion_sort Z.ltb [3; 1; 2; 1] = [1; 1; 2; 3].
Proof. reflexivity. Qed.

Example sort_ties :
  sort_Slice (R := small_db)
    [mkMigration 2 "x" "X"; mkMigration 1 "b" "B"; mkMigration 1 "a" "A"] =
    [mkMigration 1 "b" "B"; mkMigration 1 "a" "A"; mkMigration 2 "x" "X"].
Proof. reflexivity. Qed.

Example shuffle_ex : shuffle [2; 0; 1]%nat ["a"; "b"; "c"; "d"] = ["c"; "a"; "d"; "b"].
Proof. reflexivity. Qed.

Example Glob_ex :
  file_name <$> Glob dir123 = ["001_a.sql"; "002_b.sql"; "003_c.sql"; "x_y.sql"].
Proof. vm_compute. reflexivity. Qed.

Example load123 : LoadMigrations (R := small_db) dir123 = ([m1; m2; m3], None).
Proof. vm_compute. reflexivity. Qed.

Example run123 :
  RunMigrations dir123 world2 =
    (None,
     small_world (Some ["b"; "a"; "c"]) (Some [(2, "b"); (1, "a"); (3, "c")])
       [ (CreateTable, None); (SelectVersions, None);
         (RunScript add_a, None); (InsertRecord 1 "a", None);
         (RunScript add_c, None); (InsertRecord 3 "c", None) ]
       []
       [ "Applied migration 1: a"; "Applied migration 3: c";
         "Applied 2 migrations successfully" ]).
Proof. vm_compute. reflexivity. Qed.

(** The body of a migration is sent as it is; the database of the
    examples refuses what it does not understand. *)
Example small_sql_ex :
  small_sql "SELEC 1;" (Some []) None =
    (Some ("near " +:+ quote +:+ "SELEC" +:+ quote +:+ ": syntax error"),
     (Some [], None)) /\
  small_sql add_a (Some ["a"]) None =
    (Some "duplicate column name: a", (Some ["a"], None)) /\
  small_sql "SELECT 1;" None None = (None, (None, None)).
Proof. repeat split; reflexivity. Qed.

(** A read that is cut short returns what it has, and no error. *)
Example read_cut_short :
  GetAppliedMigrations world_cut_read =
    (([1], None),
     small_world (Some []) (Some [(3, "c"); (1, "a")]) [(SelectVersions, None)] [] []).
Proof. vm_compute. reflexivity. Qed.


(** ** Facts about the library functions *)

(** *** Sorting *)

Section InsertionSortFacts.

Context {A : Type} (less : A -> A -> bool).

Lemma sink_Permutation x r : sink less x r ≡ₚ x :: r.
Proof.
  induction r as [|y r IH]; simpl; [done|].
  destruct (less x y); [|done].
  rewrite IH. apply Permutation_swap.
Qed.

Lemma insertion_sort_from_Permutation r l :
  insertion_sort_from less r l ≡ₚ r ++ l.
Proof.
  revert r; induction l as [|x l IH]; intros r; simpl.
  - by rewrite reverse_Permutation, app_nil_r.
  - rewrite IH, sink_Permutation. simpl. apply Permutation_middle.
Qed.

Lemma insertion_sort_Permutation l : insertion_sort less l ≡ₚ l.
Proof. apply insertion_sort_from_Permutation. Qed.

Lemma elem_of_insertion_sort x l : x ∈ insertion_sort less l ↔ x ∈ l.
Proof. by rewrite insertion_sort_Permutation. Qed.

End InsertionSortFacts.

Section SortedByKey.

Context {A : Type} (key : A -> Z).

#[local] Instance key_le_trans : Transitive (key_le key).
Proof. unfold key_le; intros a b c; lia. Qed.

Lemma sink_descending x r :
  StronglySorted (flip (key_le key)) r ->
  StronglySorted (flip (key_le key)) (sink (key_less key) x r).
Proof.
  induction 1 as [|y r Hr IH Hy]; simpl.
  - repeat constructor.
  - unfold key_less at 1. destruct (Z.ltb_spec (key x) (key y)).
    + constructor; [done|].
      rewrite sink_Permutation. constructor; [|done].
      unfold flip, key_le. lia.
    + constructor; [by constructor|].
      constructor; [done|].
      eapply Forall_impl; [exact Hy|].
      unfold flip, key_le. intros; lia.
Qed.

Lemma insertion_sort_from_sorted r l :
  StronglySorted (flip (key_le key)) r ->
  StronglySorted (key_le key) (insertion_sort_from (key_less key) r l).
Proof.
  revert r; induction l as [|x l IH]; intros r Hr; simpl.
  - apply Sorted_StronglySorted; [apply _|].
    apply (Sorted_reverse (flip (key_le key))).
    by apply StronglySorted_Sorted.
  - by apply IH, sink_descending.
Qed.

Lemma insertion_sort_sorted l :
  StronglySorted (key_le key) (insertion_sort (key_less key) l).
Proof. apply insertion_sort_from_sorted. constructor. Qed.

Lemma insertion_sort_keys_sorted l :
  StronglySorted Z.le (key <$> insertion_sort (key_less key) l).
Proof.
  generalize (insertion_sort_sorted l).
  induction 1 as [|a s Hs IH Ha]; simpl; constructor; [done|].
  by rewrite Forall_fmap.
Qed.

End SortedByKey.

Lemma StronglySorted_le_NoDup_lt (l : list Z) :
  StronglySorted Z.le l -> NoDup l -> StronglySorted Z.lt l.
Proof.
  induction 1 as [|a l Hl IH Ha]; intros Hnd; constructor.
  - apply IH. by inv Hnd.
  - inv Hnd. rewrite Forall_forall in Ha |- *.
    intros b Hb. specialize (Ha b Hb).
    assert (a <> b) by (intros ->; done). lia.
Qed.

Lemma StronglySorted_lt_NoDup (l : list Z) : StronglySorted Z.lt l -> NoDup l.
Proof.
  induction 1 as [|a l Hl IH Ha]; constructor; [|done].
  intros Hin. rewrite Forall_forall in Ha. specialize (Ha a Hin). lia.
Qed.

Lemma StronglySorted_sublist {A} (R : relation A) (l1 l2 : list A) :
  l1 `sublist_of` l2 -> StronglySorted R l2 -> StronglySorted R l1.
Proof.
  induction 1 as [|x l1 l2 Hsub IH|x l1 l2 Hsub IH]; intros Hs.
  - constructor.
  - apply StronglySorted_cons in Hs as [Hx Hs].
    constructor; [by apply IH|].
    rewrite Forall_forall in Hx |- *. intros y Hy.
    apply Hx. by eapply elem_of_sublist.
  - apply StronglySorted_cons in Hs as [_ Hs]. by apply IH.
Qed.

Section InsertionSortOrder.

Context {A : Type} (less : A -> A -> bool).

Context (less_trans : Transitive (not_after less)).

Context (less_asym : forall a b, less a b = true -> less b a = false).

Lemma sink_not_after x r :
  StronglySorted (flip (not_after less)) r ->
  StronglySorted (flip (not_after less)) (sink less x r).
Proof.
  induction 1 as [|y r Hr IH Hy]; simpl.
  - repeat constructor.
  - destruct (less x y) eqn:Hxy.
    + constructor; [done|].
      rewrite sink_Permutation. constructor; [|done].
      by apply less_asym.
    + constructor; [by constructor|].
      constructor; [done|].
      eapply Forall_impl; [exact Hy|].
      intros z Hz. unfold flip in *. by etrans.
Qed.

Lemma insertion_sort_from_not_after r l :
  StronglySorted (flip (not_after less)) r ->
  StronglySorted (not_after less) (insertion_sort_from less r l).
Proof.
  revert r; induction l as [|x l IH]; intros r Hr; simpl.
  - apply Sorted_StronglySorted; [done|].
    apply (Sorted_reverse (flip (not_after less))).
    by apply StronglySorted_Sorted.
  - by apply IH, sink_not_after.
Qed.

Lemma insertion_sort_not_after l :
  StronglySorted (not_after less) (insertion_sort less l).
Proof. apply insertion_sort_from_not_after. constructor. Qed.

End InsertionSortOrder.

Lemma shuffle_Permutation {A} (picks : list nat) (l : list A) :
  shuffle picks l ≡ₚ l.
Proof.
  revert l; induction picks as [|i picks IH]; intros l; simpl; [done|].
  destruct (l !! (i mod length l)%nat) as [x|] eqn:Hx; [|done].
  rewrite IH. symmetry. by apply delete_Permutation.
Qed.

Lemma shuffle_complete {A} (l l' : list A) :
  l' ≡ₚ l -> exists picks, shuffle picks l = l'.
Proof.
  revert l; induction l' as [|x t IH]; intros l Hp.
  - apply Permutation_nil_l in Hp as <-. by exists [].
  - assert (Hx : x ∈ l) by (rewrite <- Hp; left).
    apply list_elem_of_lookup_1 in Hx as [k Hk].
    destruct (IH (delete k l)) as [picks Hpicks].
    { apply (Permutation_cons_inv (a := x)). rewrite Hp.
      by apply delete_Permutation. }
    exists (k :: picks). simpl.
    rewrite Nat.mod_small by (by eapply lookup_lt_Some).
    by rewrite Hk, Hpicks.
Qed.

(** Insertion sort keeps a sorted slice as it is. *)
Lemma insertion_sort_from_sorted_id {A} (key : A -> Z) r l :
  StronglySorted (key_le key) (reverse r ++ l) ->
  insertion_sort_from (key_less key) r l = reverse r ++ l.
Proof.
  revert r; induction l as [|x l IH]; intros r Hs; simpl.
  - by rewrite app_nil_r.
  - assert (Hsink : sink (key_less key) x r = x :: r).
    { destruct r as [|y r]; [done|]. simpl. unfold key_less.
      assert (Hyx : key_le key y x).
      { apply (StronglySorted_app_1_elem_of _ _ _ y x Hs); [|left].
        rewrite reverse_cons. apply elem_of_app. right. left. }
      unfold key_le in Hyx. destruct (Z.ltb_spec (key x) (key y)); [lia|done]. }
    rewrite Hsink, IH; rewrite reverse_cons, <- app_assoc; done.
Qed.

(** *** Strings *)

Lemma app_String c s t : String c s +:+ t = String c (s +:+ t).
Proof. reflexivity. Qed.

Lemma app_Empty t : EmptyString +:+ t = t.
Proof. reflexivity. Qed.

Lemma string_app_assoc (a b c : string) : (a +:+ b) +:+ c = a +:+ b +:+ c.
Proof. induction a as [|x a IH]; [done|]. by rewrite !app_String, IH. Qed.

Lemma string_length_app (a b : string) :
  String.length (a +:+ b) = (String.length a + String.length b)%nat.
Proof. induction a as [|x a IH]; [done|]. rewrite app_String. simpl. by rewrite IH. Qed.

Lemma substring_all (b : string) : substring 0 (String.length b) b = b.
Proof. induction b as [|x b IH]; [done|]. simpl. by rewrite IH. Qed.

Lemma substring_drop (a b : string) :
  substring (String.length a) (String.length b) (a +:+ b) = b.
Proof. induction a as [|x a IH]; [apply substring_all|]. by rewrite app_String. Qed.

Lemma substring_take (a b : string) :
  substring 0 (String.length a) (a +:+ b) = a.
Proof.
  induction a as [|x a IH]; [by destruct b|].
  rewrite app_String. simpl. by rewrite IH.
Qed.

Lemma HasSuffix_app (a suffix : string) : HasSuffix (a +:+ suffix) suffix = true.
Proof.
  unfold HasSuffix. rewrite string_length_app.
  replace (String.length a + String.length suffix - String.length suffix)%nat
    with (String.length a) by lia.
  rewrite substring_drop, String.eqb_refl, andb_true_r.
  apply Nat.leb_le. lia.
Qed.

Lemma TrimSuffix_app (a suffix : string) : TrimSuffix (a +:+ suffix) suffix = a.
Proof.
  unfold TrimSuffix. rewrite HasSuffix_app, string_length_app.
  replace (String.length a + String.length suffix - String.length suffix)%nat
    with (String.length a) by lia.
  apply substring_take.
Qed.

Lemma no_sep_String sep c s :
  no_sep sep (String c s) -> c <> sep /\ no_sep sep s.
Proof.
  intros H; split.
  - intros ->. by apply (H EmptyString s).
  - intros a b ->. by apply (H (String c a) b).
Qed.

Lemma cut_app sep p r :
  no_sep sep p -> cut sep (p +:+ String sep r) = Some (p, r).
Proof.
  induction p as [|c p IH]; intros Hp.
  - rewrite app_Empty. simpl. by rewrite Ascii.eqb_refl.
  - apply no_sep_String in Hp as [Hc Hp].
    rewrite app_String. simpl.
    apply Ascii.eqb_neq in Hc as ->. by rewrite IH.
Qed.

Lemma cut_Some sep s p r :
  cut sep s = Some (p, r) -> s = p +:+ String sep r /\ no_sep sep p.
Proof.
  revert p; induction s as [|c s IH]; intros p; simpl; [done|].
  destruct (Ascii.eqb_spec c sep) as [->|Hc].
  - intros [= <- <-]. split; [done|]. intros [|??] ?; discriminate.
  - destruct (cut sep s) as [[a b]|]; [|done].
    intros [= <- <-]. destruct (IH a eq_refl) as [-> Ha].
    split; [done|].
    intros [|x a'] b'; rewrite ?app_Empty, ?app_String; intros [= ? ?]; subst.
    + done.
    + by eapply Ha.
Qed.

Lemma SplitN2_app p r :
  no_sep "_" p -> SplitN2 (p +:+ String "_" r) "_" = [p; r].
Proof. intros Hp. unfold SplitN2. by rewrite cut_app. Qed.

Lemma cut_app_Some sep a b : is_Some (cut sep (a +:+ String sep b)).
Proof.
  induction a as [|c a IH].
  - rewrite app_Empty. simpl. rewrite Ascii.eqb_refl. by eexists.
  - rewrite app_String. simpl. destruct (Ascii.eqb c sep); [by eexists|].
    destruct IH as [[x y] ->]. by eexists.
Qed.

Lemma cut_None_no_sep sep s : cut sep s = None -> no_sep sep s.
Proof.
  intros Hc a b ->. destruct (cut_app_Some sep a b) as [x Hx]. congruence.
Qed.

Lemma substring_split s i :
  (i <= String.length s)%nat ->
  s = substring 0 i s +:+ substring i (String.length s - i) s.
Proof.
  revert i; induction s as [|c s IH]; intros i Hi.
  - by destruct i.
  - destruct i as [|i].
    + cbn [substring]. rewrite app_Empty. cbn [String.length Nat.sub substring].
      by rewrite substring_all.
    + cbn [String.length] in Hi. cbn [substring String.length Nat.sub].
      rewrite app_String. f_equal. apply IH. lia.
Qed.

Lemma HasSuffix_inv s suffix :
  HasSuffix s suffix = true -> s = TrimSuffix s suffix +:+ suffix.
Proof.
  intros Hs. unfold TrimSuffix. rewrite Hs. unfold HasSuffix in Hs.
  apply andb_true_iff in Hs as [Hlen%Nat.leb_le Heq%String.eqb_eq].
  set (k := String.length suffix) in *.
  rewrite <- Heq.
  rewrite (substring_split s (String.length s - k)) at 1 by lia.
  do 2 f_equal. lia.
Qed.

Lemma sql_suffix_after_sep p rest a :
  p +:+ String "_" rest = a +:+ ".sql" -> exists n, rest = n +:+ ".sql".
Proof.
  revert a; induction p as [|c p IH]; intros a.
  - rewrite app_Empty. destruct a as [|c' a]; rewrite ?app_Empty, ?app_String.
    + discriminate.
    + intros [= _ ->]. by exists a.
  - rewrite app_String. destruct a as [|c' a]; rewrite ?app_Empty, ?app_String.
    + intros [= _ H]. exfalso.
      destruct p as [|c1 [|c2 [|c3 [|c4 p]]]];
        rewrite ?app_Empty, ?app_String in H; discriminate.
    + intros [= _ H]. by apply (IH a).
Qed.

Lemma ltb_false_leb a b : String.ltb b a = false <-> String.leb a b = true.
Proof.
  unfold String.ltb, String.leb. rewrite (String.compare_antisym b a).
  by destruct (String.compare a b).
Qed.

(** *** Integers and their text *)

(** [Atoi] only returns values of the 64-bit [int]. *)
Lemma Atoi_range s v : Atoi s = Some v -> min_int <= v <= max_int.
Proof.
  unfold Atoi. destruct s as [|c rest]; [done|].
  destruct (if is_sign c then rest else String c rest); [done|].
  destruct (parse_digits _ _); [|done].
  destruct (_ && _) eqn:Hr; [|done].
  intros [= <-]. apply andb_true_iff in Hr as [?%Z.leb_le ?%Z.leb_le]. done.
Qed.

Lemma parse_digits_acc d (acc : positive) :
  parse_digits (NilEmpty.string_of_uint d) (Z.pos acc) =
    Some (Z.pos (Pos.of_uint_acc d acc)).
Proof.
  revert acc; induction d; intros acc; cbn [NilEmpty.string_of_uint parse_digits];
    [done|..];
    match goal with
    | |- context [digit_of ?c] =>
        let v := eval vm_compute in (digit_of c) in
        change (digit_of c) with v
    end.
  all: cbn [Pos.of_uint_acc]; rewrite <- IHd; f_equal; lia.
Qed.

Lemma parse_digits_uint d :
  parse_digits (NilEmpty.string_of_uint d) 0 = Some (Z.of_N (Pos.of_uint d)).
Proof.
  induction d; cbn [NilEmpty.string_of_uint parse_digits Pos.of_uint]; [done|..].
  - exact IHd.
  - apply (parse_digits_acc d 1).
  - apply (parse_digits_acc d 2).
  - apply (parse_digits_acc d 3).
  - apply (parse_digits_acc d 4).
  - apply (parse_digits_acc d 5).
  - apply (parse_digits_acc d 6).
  - apply (parse_digits_acc d 7).
  - apply (parse_digits_acc d 8).
  - apply (parse_digits_acc d 9).
Qed.

Lemma string_of_uint_head d :
  d <> Decimal.Nil ->
  exists c s,
    NilEmpty.string_of_uint d = String c s /\ is_sign c = false.
Proof. destruct d; [done|..]; intros _; by eexists _, _. Qed.

Lemma Atoi_unsigned c s n :
  is_sign c = false ->
  parse_digits (String c s) 0 = Some n ->
  min_int <= n <= max_int ->
  Atoi (String c s) = Some n.
Proof.
  intros Hc Hp [Hlo%Z.leb_le Hhi%Z.leb_le]. unfold Atoi. rewrite Hc, Hp.
  unfold is_sign in Hc. apply orb_false_iff in Hc as [-> _].
  by rewrite Hlo, Hhi.
Qed.

Lemma Atoi_negative c s n :
  parse_digits (String c s) 0 = Some n ->
  min_int <= - n <= max_int ->
  Atoi (String "-" (String c s)) = Some (- n).
Proof.
  intros Hp [Hlo%Z.leb_le Hhi%Z.leb_le]. unfold Atoi.
  change (is_sign "-") with true. cbv iota. rewrite Hp.
  change (Ascii.eqb "-" "-") with true. cbv iota.
  by rewrite Hlo, Hhi.
Qed.

Lemma Itoa_pos p :
  exists c s,
    NilZero.string_of_uint (Pos.to_uint p) = String c s /\
    is_sign c = false /\
    parse_digits (String c s) 0 = Some (Z.pos p).
Proof.
  pose proof (DecimalPos.Unsigned.to_uint_nonnil p) as Hnil.
  destruct (string_of_uint_head _ Hnil) as (c & s & Hs & Hc).
  pose proof (parse_digits_uint (Pos.to_uint p)) as Hparse.
  rewrite DecimalPos.Unsigned.of_to, Hs in Hparse.
  exists c, s. split; [|done].
  rewrite <- Hs. unfold NilZero.string_of_uint.
  by destruct (Pos.to_uint p).
Qed.

(** *** Slices and the lookup map *)

Lemma fold_left_snoc {A} (l acc : list A) :
  fold_left (fun versions version => versions ++ [version]) l acc = acc ++ l.
Proof.
  revert acc; induction l as [|x l IH]; intros acc; simpl.
  - by rewrite app_nil_r.
  - by rewrite IH, <- app_assoc.
Qed.

Lemma lookup_fold_insert (l : list Z) (acc : gmap Z bool) v :
  fold_left (fun m version => <[version := true]> m) l acc !! v =
    if bool_decide (v ∈ l) then Some true else acc !! v.
Proof.
  revert acc; induction l as [|x l IH]; intros acc; simpl; [done|].
  rewrite IH. destruct (decide (x = v)) as [->|Hne].
  - rewrite lookup_insert_eq, (bool_decide_eq_true_2 (v ∈ v :: l)) by left.
    by case_bool_decide.
  - rewrite lookup_insert_ne by done.
    case_bool_decide as H1; case_bool_decide as H2; try done.
    + exfalso. apply H2. by right.
    + exfalso. apply elem_of_cons in H2 as [->|?]; done.
Qed.

Lemma is_applied_make (l : list Z) v :
  is_applied (make_appliedMap l) v = bool_decide (v ∈ l).
Proof.
  unfold is_applied, make_appliedMap. rewrite lookup_fold_insert.
  by case_bool_decide.
Qed.

Lemma pending_make (vs : list Z) ms :
  pending (make_appliedMap vs) ms = pending_of vs ms.
Proof.
  unfold pending, pending_of. apply list_filter_iff. intros m.
  by rewrite is_applied_make, bool_decide_eq_false.
Qed.

Lemma pending_of_sorted (vs : list Z) ms :
  pending_of (insertion_sort Z.ltb vs) ms = pending_of vs ms.
Proof.
  unfold pending_of. apply list_filter_iff. intros m.
  by rewrite elem_of_insertion_sort.
Qed.

Lemma pending_of_sublist applied ms : pending_of applied ms `sublist_of` ms.
Proof. apply sublist_filter. Qed.

(** ** The sources of the directory *)

Lemma SplitN2_shape s :
  (exists p r, SplitN2 s "_" = [p; r] /\ cut "_" s = Some (p, r)) \/
  (SplitN2 s "_" = [s] /\ cut "_" s = None).
Proof. unfold SplitN2. destruct (cut "_" s) as [[p r]|]; eauto. Qed.

Lemma load_file_skip acc file :
  parses (file_name file) = false -> load_file acc file = inr acc.
Proof.
  unfold parses, load_file.
  destruct (SplitN2_shape (file_name file)) as [(p & r & -> & _)|[-> _]]; [|done].
  case_bool_decide as Hp; [done|]. intros _.
  destruct (Atoi p); [|done]. exfalso. apply Hp. by eexists.
Qed.

Lemma load_file_inr acc file ms :
  load_file acc file = inr ms ->
  ms = acc ++ option_list (migration_of file) /\
  (parses (file_name file) = true -> readable file).
Proof.
  unfold parses, load_file, migration_of, readable.
  destruct (SplitN2_shape (file_name file)) as [(p & r & -> & _)|[-> _]].
  - destruct (Atoi p) as [v|].
    + destruct (file_data file) as [c|e]; [|done].
      intros [= <-]. split; [done|]. by eexists.
    + intros [= <-]. rewrite app_nil_r. split; [done|].
      case_bool_decide as H; [|done]. by destruct H.
  - intros [= <-]. by rewrite app_nil_r.
Qed.

Lemma load_file_readable acc file :
  (parses (file_name file) = true -> readable file) ->
  load_file acc file = inr (acc ++ option_list (migration_of file)).
Proof.
  unfold parses, load_file, migration_of, readable.
  destruct (SplitN2_shape (file_name file)) as [(p & r & -> & _)|[-> _]].
  - destruct (Atoi p) as [v|]; [|by rewrite app_nil_r].
    rewrite bool_decide_eq_true_2 by (by eexists).
    intros [c ->]; done.
  - by rewrite app_nil_r.
Qed.

Lemma load_files_inr acc files ms :
  load_files acc files = inr ms ->
  ms = acc ++ omap migration_of files /\
  Forall (fun f => parses (file_name f) = true -> readable f) files.
Proof.
  revert acc; induction files as [|f files IH]; intros acc; simpl.
  - intros [= <-]. by rewrite app_nil_r.
  - destruct (load_file acc f) as [e|acc'] eqn:Hf; [done|].
    apply load_file_inr in Hf as [-> Hr].
    intros [-> Hall]%IH. split; [|by constructor].
    rewrite <- app_assoc. by destruct (migration_of f).
Qed.

Lemma load_files_readable acc files :
  Forall (fun f => parses (file_name f) = true -> readable f) files ->
  load_files acc files = inr (acc ++ omap migration_of files).
Proof.
  intros Hall; revert acc; induction Hall as [|f files Hf Hall IH]; intros acc; simpl.
  - by rewrite app_nil_r.
  - rewrite (load_file_readable _ _ Hf), IH, <- app_assoc.
    by destruct (migration_of f).
Qed.

Lemma load_file_inl acc file e :
  load_file acc file = inl e ->
  parses (file_name file) = true /\
  exists e0,
    file_data file = ReadErr e0 /\
    e = wrap ("failed to read migration file migrations/" +:+ file_name file) e0.
Proof.
  unfold parses, load_file.
  destruct (SplitN2_shape (file_name file)) as [(p & r & -> & _)|[-> _]]; [|done].
  destruct (Atoi p) as [v|]; [|done].
  destruct (file_data file) as [c|e0]; [done|].
  intros [= <-]. split; [apply bool_decide_eq_true_2; by eexists|].
  by exists e0.
Qed.

Lemma load_files_inl acc files e :
  load_files acc files = inl e ->
  exists file e0,
    file ∈ files /\ parses (file_name file) = true /\
    file_data file = ReadErr e0 /\
    e = wrap ("failed to read migration file migrations/" +:+ file_name file) e0.
Proof.
  revert acc; induction files as [|f files IH]; intros acc; simpl; [done|].
  destruct (load_file acc f) as [e'|acc'] eqn:Hf.
  - intros [= ->]. apply load_file_inl in Hf as (Hp & e0 & Hd & ->).
    exists f, e0. split; [left|done].
  - intros (file & e0 & Hin & H)%IH. exists file, e0. split; [by right|done].
Qed.

Lemma migration_of_Some f m :
  migration_of f = Some m ->
  exists p rest,
    cut "_" (file_name f) = Some (p, rest) /\
    Atoi p = Some (Version m) /\
    Name m = TrimSuffix rest ".sql" /\
    file_data f = ReadOk (SQL m).
Proof.
  unfold migration_of.
  destruct (SplitN2_shape (file_name f)) as [(p & r & -> & Hcut)|[-> _]]; [|done].
  destruct (Atoi p) as [v|] eqn:Hv; [|done].
  destruct (file_data f) as [c|e]; [|done].
  intros [= <-]. by exists p, r.
Qed.

Lemma name_less_trans : Transitive (not_after name_less).
Proof.
  intros f g h. unfold not_after, name_less. rewrite !ltb_false_leb.
  intros Hfg Hgh. apply Is_true_true.
  apply (transitivity (R := String.le) (y := file_name g));
    by apply Is_true_true.
Qed.

Lemma name_less_asym f g : name_less f g = true -> name_less g f = false.
Proof.
  unfold name_less, String.ltb.
  rewrite (String.compare_antisym (file_name g) (file_name f)).
  by destruct (String.compare (file_name f) (file_name g)).
Qed.

Lemma NoDup_fmap_elem_inj {A B} (f : A -> B) (l : list A) x y :
  NoDup (f <$> l) -> x ∈ l -> y ∈ l -> f x = f y -> x = y.
Proof.
  induction l as [|a l IH]; cbn [fmap list_fmap].
  - by intros _ []%elem_of_nil.
  - intros [Hnew Hnd]%NoDup_cons
      [->|Hx]%elem_of_cons [->|Hy]%elem_of_cons Hf; [done|..].
    + destruct Hnew. rewrite Hf. apply list_elem_of_fmap. by exists y.
    + destruct Hnew. rewrite <- Hf. apply list_elem_of_fmap. by exists x.
    + by apply IH.
Qed.

Lemma Glob_listing_order dir dir' :
  NoDup (file_name <$> dir) -> dir ≡ₚ dir' ->
  insertion_sort name_less dir' = insertion_sort name_less dir.
Proof.
  intros Hnd Hperm.
  apply (StronglySorted_unique_strong (not_after name_less)).
  - intros f g Hf Hg Hfg Hgf.
    rewrite elem_of_insertion_sort in Hf, Hg. rewrite <- Hperm in Hf.
    apply (NoDup_fmap_elem_inj file_name dir); [done..|].
    unfold not_after, name_less in Hfg, Hgf. rewrite ltb_false_leb in Hfg, Hgf.
    by apply String.leb_antisym.
  - apply insertion_sort_not_after;
      [apply name_less_trans|apply name_less_asym].
  - apply insertion_sort_not_after;
      [apply name_less_trans|apply name_less_asym].
  - by rewrite !insertion_sort_Permutation.
Qed.

(** ** What [LoadMigrations] returns *)

Section Loading.

Context {R : Runtime}.

Lemma sort_Slice_Permutation ms : sort_Slice ms ≡ₚ ms.
Proof.
  unfold sort_Slice.
  destruct (length ms <=? 12)%nat; rewrite insertion_sort_Permutation; [done|].
  apply shuffle_Permutation.
Qed.

Lemma sort_Slice_sorted ms : StronglySorted Z.le (Version <$> sort_Slice ms).
Proof.
  unfold sort_Slice.
  destruct (length ms <=? 12)%nat; apply (insertion_sort_keys_sorted Version).
Qed.

(** Every sorted arrangement of a slice is what the insertion sort makes
    of some rearrangement of it: [tie_order] can stand for any choice of
    the [sort] package. *)
Lemma sort_Slice_any (ms sorted : list Migration) :
  sorted ≡ₚ ms ->
  StronglySorted (key_le Version) sorted ->
  exists picks, insertion_sort version_less (shuffle picks ms) = sorted.
Proof.
  intros [picks Hpicks]%shuffle_complete Hs.
  exists picks. rewrite Hpicks.
  by apply (insertion_sort_from_sorted_id Version []).
Qed.

Lemma Glob_Permutation dir : Glob dir ≡ₚ filter is_sql dir.
Proof. unfold Glob. by rewrite insertion_sort_Permutation. Qed.

Lemma LoadMigrations_inv dir ms :
  LoadMigrations dir = (ms, None) ->
  ms = sort_Slice (omap migration_of (Glob dir)) /\
  Forall (fun f => parses (file_name f) = true -> readable f) (Glob dir).
Proof.
  unfold LoadMigrations.
  destruct (load_files [] (Glob dir)) as [e|ms0] eqn:Hl; [done|].
  apply load_files_inr in Hl as [-> Hall]. by intros [= <-].
Qed.

Lemma LoadMigrations_Permutation dir ms :
  LoadMigrations dir = (ms, None) ->
  ms ≡ₚ omap migration_of (filter is_sql dir).
Proof.
  intros [-> _]%LoadMigrations_inv.
  by rewrite sort_Slice_Permutation, Glob_Permutation.
Qed.

Lemma LoadMigrations_sorted dir :
  StronglySorted Z.le (Version <$> (LoadMigrations dir).1).
Proof.
  unfold LoadMigrations. destruct (load_files [] (Glob dir)); simpl.
  - constructor.
  - apply sort_Slice_sorted.
Qed.

Lemma LoadMigrations_succeeds_iff dir :
  (LoadMigrations dir).2 = None <->
  forall f, f ∈ dir -> is_sql f -> parses (file_name f) = true -> readable f.
Proof.
  assert (Hglob : forall f, f ∈ Glob dir <-> is_sql f /\ f ∈ dir).
  { intros f. by rewrite Glob_Permutation, list_elem_of_filter. }
  split.
  - intros Hok f Hf Hsql.
    destruct (LoadMigrations dir) as [ms r] eqn:Hl. cbn in Hok. subst r.
    apply LoadMigrations_inv in Hl as [_ Hall].
    rewrite Forall_forall in Hall. apply Hall, Hglob. done.
  - intros Hall. unfold LoadMigrations.
    rewrite load_files_readable; [done|].
    apply Forall_forall. intros f [Hsql Hf]%Hglob. by apply Hall.
Qed.

Lemma LoadMigrations_error dir ms e : LoadMigrations dir = (ms, Some e) -> ms = [].
Proof.
  unfold LoadMigrations. destruct (load_files [] (Glob dir)); by intros [= <- <-].
Qed.

End Loading.

(** ** The calls to the driver *)

Section Driver.

Context {R : Runtime}.

Lemma exec_script_spec sql w o w1 :
  exec_script sql w = (o, w1) ->
  log w1 = log w ++ [(RunScript sql, o)] /\
  stdout w1 = stdout w /\
  faults w1 = tail (faults w) /\
  ((exists e, head (faults w) = Some (Some (Fail e)) /\ o = Some e /\
              app w1 = app w /\ table w1 = table w)
   \/ ((forall e, head (faults w) <> Some (Some (Fail e))) /\
       run_sql sql (app w) (table w) = (o, (app w1, table w1)))).
Proof.
  unfold exec_script, driver_call.
  destruct (head (faults w)) as [[[e|k]|]|];
    [intros [= <- <-]; cbn; repeat (split; [done|]); left; by exists e|..];
    destruct (run_sql sql (app w) (table w)) as [o' [a' t']];
    intros [= <- <-]; cbn; repeat (split; [done|]); right; done.
Qed.

Lemma exec_script_keeps sql w :
  keeps_table sql -> table (exec_script sql w).2 = table w.
Proof.
  intros Hk. destruct (exec_script sql w) as [o w1] eqn:Hs. cbn [snd].
  apply exec_script_spec in Hs as (_ & _ & _ & [(e & _ & _ & _ & Ht)|[_ Hrun]]);
    [done|].
  specialize (Hk (app w) (table w)). by rewrite Hrun in Hk.
Qed.


Lemma exec_insert_spec v n w o w1 :
  exec_insert v n w = (o, w1) ->
  log w1 = log w ++ [(InsertRecord v n, o)] /\
  stdout w1 = stdout w /\
  faults w1 = tail (faults w) /\
  app w1 = app w /\
  match o with
  | None =>
      exists rs, table w = Some rs /\ (v ∉ rs.*1) /\
                 table w1 = Some (rs ++ [(v, n)])
  | Some _ => table w1 = table w
  end.
Proof.
  unfold exec_insert, driver_call.
  destruct (head (faults w)) as [[[e|k]|]|]; [by intros [= <- <-]|..];
    (destruct (table w) as [rs|]; [case_bool_decide|]);
    intros [= <- <-]; cbn; repeat (split; [done|]); try done;
    by exists rs.
Qed.



Lemma exec_insert_missing v n w e w2 :
  exec_insert v n w = (Some e, w2) ->
  table w = None ->
  (forall e', head (faults w) <> Some (Some (Fail e'))) ->
  e = no_such_table.
Proof.
  unfold exec_insert, driver_call. intros Hins Ht Hf. rewrite Ht in Hins.
  destruct (head (faults w)) as [[[e'|k]|]|]; [by destruct (Hf e')|..];
    by injection Hins as <- _.
Qed.


Lemma InitMigrationTable_spec w o w1 :
  InitMigrationTable w = (o, w1) ->
  log w1 = log w ++ [(CreateTable, o)] /\
  stdout w1 = stdout w /\
  faults w1 = tail (faults w) /\
  app w1 = app w /\
  rows w1 = rows w /\
  match o with
  | None =>
      table w1 = Some (rows w) /\
      forall e, head (faults w) <> Some (Some (Fail e))
  | Some e => table w1 = table w /\ head (faults w) = Some (Some (Fail e))
  end.
Proof.
  unfold InitMigrationTable, exec_create_table, driver_call, rows.
  destruct (head (faults w)) as [[[e|k]|]|]; intros [= <- <-]; cbn; done.
Qed.


Lemma GetAppliedMigrations_spec w vs o w1 :
  GetAppliedMigrations w = ((vs, o), w1) ->
  log w1 = log w ++ [(SelectVersions, o)] /\
  stdout w1 = stdout w /\
  faults w1 = tail (faults w) /\
  app w1 = app w /\
  table w1 = table w /\
  match o with
  | None =>
      is_Some (table w) /\
      (forall e, head (faults w) <> Some (Some (Fail e))) /\
      vs `prefix_of` insertion_sort Z.ltb (versions w) /\
      (reads_all 0 w -> vs = insertion_sort Z.ltb (versions w))
  | Some e =>
      vs = [] /\
      (head (faults w) = Some (Some (Fail e)) \/
       table w = None /\ e = no_such_table)
  end.
Proof.
  unfold GetAppliedMigrations, query_versions, driver_call, bind, ret,
    reads_all, versions, rows.
  rewrite <- head_lookup.
  destruct (head (faults w)) as [[[e|k]|]|]; [intros [= <- <- <-]; cbn; auto 10|..];
    (destruct (table w) as [rs|]; [|intros [= <- <- <-]; cbn; auto 10]);
    rewrite fold_left_snoc; intros [= <- <- <-];
    cbn [log stdout faults app table];
    do 5 (split; [done|]); (split; [by eexists|]); (split; [done|]).
  - split; [apply prefix_take|]. intros H. by destruct (H k).
  - done.
  - done.
Qed.

Lemma GetAppliedMigrations_ok w :
  is_Some (table w) ->
  (forall e, head (faults w) <> Some (Some (Fail e))) ->
  (GetAppliedMigrations w).1.2 = None.
Proof.
  intros [rs Ht] Hf.
  destruct (GetAppliedMigrations w) as [[vs [e|]] w1] eqn:Hg; [|done].
  apply GetAppliedMigrations_spec in Hg as (_ & _ & _ & _ & _ & _ & [He|[Hn _]]).
  - by destruct (Hf e).
  - congruence.
Qed.

End Driver.

(** ** One call of [ApplyMigration] *)

Section Applying.

Context {R : Runtime}.

Lemma ApplyMigration_unfold m w :
  ApplyMigration m w =
    match exec_script (SQL m) w with
    | (Some e, w1) => (Some (apply_failed m e), w1)
    | (None, w1) =>
        match exec_insert (Version m) (Name m) w1 with
        | (Some e, w2) => (Some (record_failed m e), w2)
        | (None, w2) => (None, with_line (line_of m) w2)
        end
    end.
Proof.
  unfold ApplyMigration, bind, ret.
  destruct (exec_script (SQL m) w) as [[e|] w1]; [done|].
  by destruct (exec_insert (Version m) (Name m) w1) as [[e|] w2].
Qed.

(** One call: what is returned, sent and printed; and, for a body that
    leaves the bookkeeping table alone, what becomes of the table. *)
Lemma ApplyMigration_spec m w r w' :
  ApplyMigration m w = (r, w') ->
  r = error_of m (outcome_of m w) /\
  log w' = log w ++ events_of m (outcome_of m w) /\
  stdout w' = stdout w ++ (if outcome_of m w is Applied then [line_of m] else []) /\
  (keeps_table (SQL m) ->
   rows w' = rows w ++ (if outcome_of m w is Applied then [row_of m] else []) /\
   (is_Some (table w) -> is_Some (table w')) /\
   (outcome_of m w = Applied -> Version m ∉ versions w)).
Proof.
  rewrite ApplyMigration_unfold. unfold outcome_of.
  pose proof (exec_script_keeps (SQL m) w) as Hkeep.
  destruct (exec_script (SQL m) w) as [o1 w1] eqn:Hs. cbn [snd] in Hkeep.
  apply exec_script_spec in Hs as (Hlog1 & Hout1 & _ & _).
  destruct o1 as [e|].
  { intros [= <- <-]. rewrite app_nil_r. repeat (split; [done|]).
    intros Hk. unfold rows. rewrite (Hkeep Hk). by rewrite app_nil_r. }
  destruct (exec_insert (Version m) (Name m) w1) as [o2 w2] eqn:Hi.
  apply exec_insert_spec in Hi as (Hlog2 & Hout2 & _ & _ & Ht2).
  destruct o2 as [e|]; intros [= <- <-]; cbn [error_of events_of log stdout].
  - rewrite app_nil_r, Hlog2, Hlog1, <- app_assoc, Hout2, Hout1.
    repeat (split; [done|]).
    intros Hk. unfold rows. rewrite Ht2, (Hkeep Hk). by rewrite app_nil_r.
  - unfold with_line at 1 2. cbn [log stdout].
    rewrite Hlog2, Hlog1, <- app_assoc, Hout2, Hout1.
    repeat (split; [done|]).
    intros Hk. destruct Ht2 as (rs & Ht1 & Hnew & Ht2).
    rewrite (Hkeep Hk) in Ht1.
    unfold versions, rows, with_line. cbn [table]. rewrite Ht2, Ht1. cbn.
    split; [done|]. split; [by eexists|done].
Qed.

Lemma ApplyMigration_error m w : (ApplyMigration m w).1 = error_of m (outcome_of m w).
Proof.
  destruct (ApplyMigration m w) as [r w'] eqn:Ha. cbn [fst].
  by apply ApplyMigration_spec in Ha as (-> & _).
Qed.

Lemma ApplyMigration_log m w :
  log (ApplyMigration m w).2 = log w ++ events_of m (outcome_of m w).
Proof.
  destruct (ApplyMigration m w) as [r w'] eqn:Ha. cbn [snd].
  by apply ApplyMigration_spec in Ha as (_ & -> & _).
Qed.

End Applying.

(** ** The loop of [RunMigrations] *)

Section Loop.

Context {R : Runtime}.

Lemma applied_events_app l1 l2 :
  applied_events (l1 ++ l2) = applied_events l1 ++ applied_events l2.
Proof. apply flat_map_app. Qed.

(** The loop applies the pending migrations in the order of the slice
    until one fails. When their bodies leave the bookkeeping table alone,
    the table gains the rows of those that were applied. *)
Lemma apply_pending_trace amap ms c w c' r w' :
  apply_pending amap ms c w = ((c', r), w') ->
  exists pre tl,
    pending amap ms = pre ++ tl /\
    c' = c + Z.of_nat (length pre) /\
    stdout w' = stdout w ++ (line_of <$> pre) /\
    match r with
    | None => tl = [] /\ log w' = log w ++ applied_events pre
    | Some e =>
        exists m post o,
          tl = m :: post /\ o <> Applied /\ Some e = error_of m o /\
          log w' = log w ++ applied_events pre ++ events_of m o
    end /\
    (Forall (fun m => keeps_table (SQL m)) (pending amap ms) ->
     rows w' = rows w ++ (row_of <$> pre) /\
     (is_Some (table w) -> is_Some (table w')) /\
     Forall (fun m => Version m ∉ versions w) pre /\
     NoDup (Version <$> pre)).
Proof.
  revert c w; induction ms as [|m ms IH]; intros c w; simpl.
  - intros [= <- <- <-]. exists [], []. simpl.
    rewrite !app_nil_r. repeat split; [lia | done | constructor | constructor].
  - unfold pending.
    destruct (is_applied amap (Version m)) eqn:Hm; simpl.
    { rewrite filter_cons_False by congruence. apply IH. }
    rewrite filter_cons_True by done. fold (pending amap ms).
    unfold bind.
    destruct (ApplyMigration m w) as [r1 w1] eqn:Happly.
    apply ApplyMigration_spec in Happly as (-> & Hlog1 & Hout1 & Hrows1).
    destruct (outcome_of m w) eqn:Ho; cbn [error_of]; unfold ret.
    + intros Hrun.
      apply IH in Hrun as (pre & tl & Hp & Hc & Hout & Hr & Hrows).
      exists (m :: pre), tl. rewrite Hp.
      cbn [length fmap list_fmap app].
      split; [done|]. split; [lia|].
      split; [by rewrite Hout, Hout1, <- app_assoc|]. split.
      * unfold applied_events in *. cbn [flat_map].
        destruct r as [e|].
        -- destruct Hr as (m' & post & o & -> & ? & ? & ->).
           exists m', post, o. by rewrite Hlog1, <- ?app_assoc.
        -- destruct Hr as [-> ->]. by rewrite Hlog1, <- ?app_assoc.
      * intros [Hk Hks]%Forall_cons. rewrite <- Hp in Hks.
        destruct (Hrows1 Hk) as (Hr1 & Ht1 & Hnew).
        destruct (Hrows Hks) as (Hr2 & Ht2 & Hfresh & Hnd).
        assert (Hafter : forall v, v ∈ versions w \/ v = Version m ->
                  v ∈ versions w1).
        { intros v Hv. unfold versions. rewrite Hr1, fmap_app.
          apply elem_of_app. destruct Hv as [?| ->]; [by left|right].
          apply list_elem_of_singleton. done. }
        split; [by rewrite Hr2, Hr1, <- app_assoc|].
        split; [auto|]. split.
        -- constructor; [by apply Hnew|].
           eapply Forall_impl; [exact Hfresh|]. cbn beta.
           intros x Hx Hin. apply Hx, Hafter. by left.
        -- constructor; [|done].
           intros (x & Hv & Hx)%list_elem_of_fmap.
           rewrite Forall_forall in Hfresh. apply (Hfresh x Hx), Hafter. by right.
    + intros [= <- <- <-]. exists [], (m :: pending amap ms).
      cbn [length fmap list_fmap app applied_events flat_map].
      rewrite !app_nil_r in *. split; [done|]. split; [lia|].
      split; [done|]. split.
      * exists m, (pending amap ms), (BodyFailed e). done.
      * intros [Hk _]%Forall_cons. destruct (Hrows1 Hk) as (Hr1 & Ht1 & _).
        split; [done|]. split; [done|]. split; constructor.
    + intros [= <- <- <-]. exists [], (m :: pending amap ms).
      cbn [length fmap list_fmap app applied_events flat_map].
      rewrite !app_nil_r in *. split; [done|]. split; [lia|].
      split; [done|]. split.
      * exists m, (pending amap ms), (RecordFailed e). done.
      * intros [Hk _]%Forall_cons. destruct (Hrows1 Hk) as (Hr1 & Ht1 & _).
        split; [done|]. split; [done|]. split; constructor.
Qed.

Lemma apply_pending_nothing amap ms c w :
  pending amap ms = [] -> apply_pending amap ms c w = ((c, None), w).
Proof.
  revert c; induction ms as [|m ms IH]; intros c; simpl; [done|].
  unfold pending.
  destruct (is_applied amap (Version m)) eqn:Hm; simpl.
  - rewrite filter_cons_False by congruence. apply IH.
  - by rewrite filter_cons_True.
Qed.

End Loop.

(** ** The steps of [RunMigrations] *)

Section Run.

Context {R : Runtime}.

(** The four ways through [RunMigrations]: the table cannot be ensured, the
    versions cannot be read, the sources cannot be loaded, or the loop
    runs. *)
Lemma RunMigrations_cases dir w r w' :
  RunMigrations dir w = (r, w') ->
  (exists e,
      InitMigrationTable w = (Some e, w') /\
      r = Some (wrap "failed to initialize migration table" e))
  \/ (exists w1 vs e,
      InitMigrationTable w = (None, w1) /\
      GetAppliedMigrations w1 = ((vs, Some e), w') /\
      r = Some (wrap "failed to get applied migrations" e))
  \/ (exists w1 vs e,
      InitMigrationTable w = (None, w1) /\
      GetAppliedMigrations w1 = ((vs, None), w') /\
      LoadMigrations dir = ([], Some e) /\
      r = Some (wrap "failed to load migrations" e))
  \/ (exists w1 vs w2 ms c w3,
      InitMigrationTable w = (None, w1) /\
      GetAppliedMigrations w1 = ((vs, None), w2) /\
      LoadMigrations dir = (ms, None) /\
      apply_pending (make_appliedMap vs) ms 0 w2 = ((c, r), w3) /\
      w' = if r is None then with_line (summary_line c) w3 else w3).
Proof.
  unfold RunMigrations, bind, ret.
  destruct (InitMigrationTable w) as [[e|] w1] eqn:Hinit.
  { intros [= <- <-]. left. by exists e. }
  destruct (GetAppliedMigrations w1) as [[vs [e|]] w2] eqn:Hget.
  { intros [= <- <-]. right; left. by exists w1, vs, e. }
  destruct (LoadMigrations dir) as [ms [e|]] eqn:Hload.
  { intros [= <- <-]. right; right; left.
    apply LoadMigrations_error in Hload as ->. by exists w1, vs, e. }
  destruct (apply_pending _ ms 0 w2) as [[c r'] w3] eqn:Hloop.
  intros Hrun. right; right; right. exists w1, vs, w2, ms, c, w3.
  do 3 (split; [done|]).
  destruct r' as [e|]; [by injection Hrun as <- <-|].
  unfold summary_line, with_line. destruct (c =? 0);
    unfold Println in Hrun; by injection Hrun as <- <-.
Qed.

(** The table was ensured and the versions were read. *)
Lemma prologue_spec w w1 vs w2 :
  InitMigrationTable w = (None, w1) ->
  GetAppliedMigrations w1 = ((vs, None), w2) ->
  log w2 = log w ++ [(CreateTable, None); (SelectVersions, None)] /\
  stdout w2 = stdout w /\
  faults w2 = tail (tail (faults w)) /\
  app w2 = app w /\
  table w2 = Some (rows w) /\
  rows w2 = rows w /\
  vs `prefix_of` insertion_sort Z.ltb (versions w) /\
  (reads_all 1 w -> vs = insertion_sort Z.ltb (versions w)).
Proof.
  intros (Hl1 & Ho1 & Hf1 & Ha1 & Hr1 & Ht1 & _)%InitMigrationTable_spec
         (Hl2 & Ho2 & Hf2 & Ha2 & Ht2 & _ & _ & Hpre & Hall)%GetAppliedMigrations_spec.
  unfold versions in *. rewrite Hr1 in Hpre, Hall.
  assert (Hrows : rows w2 = rows w).
  { unfold rows at 1. by rewrite Ht2, Ht1. }
  rewrite Hl2, Hl1, <- app_assoc, Ho2, Ho1, Hf2, Hf1, Ha2, Ha1, Ht2, Ht1.
  do 7 (split; [done|]).
  intros Hread. apply Hall. intros k. rewrite Hf1, lookup_tail. apply Hread.
Qed.


Lemma run_events_log dir w evs :
  log (RunMigrations dir w).2 = log w ++ evs -> run_events dir w = evs.
Proof. unfold run_events. intros ->. apply drop_app_length. Qed.

End Run.

(** ** Runs that succeed *)

Section Success.

Context {R : Runtime}.

(** A run that returns [nil]. *)
Lemma RunMigrations_success dir w w' :
  RunMigrations dir w = (None, w') ->
  exists w1 vs w2 ms,
    InitMigrationTable w = (None, w1) /\
    GetAppliedMigrations w1 = ((vs, None), w2) /\
    LoadMigrations dir = (ms, None) /\
    log w' = log w ++ [(CreateTable, None); (SelectVersions, None)]
                   ++ applied_events (pending_of vs ms) /\
    stdout w' = stdout w ++ (line_of <$> pending_of vs ms)
                  ++ [summary_line (Z.of_nat (length (pending_of vs ms)))] /\
    (Forall (fun m => keeps_table (SQL m)) (pending_of vs ms) ->
     table w' = Some (rows w ++ (row_of <$> pending_of vs ms)) /\
     Forall (fun m => Version m ∉ versions w) (pending_of vs ms) /\
     NoDup (Version <$> pending_of vs ms)).
Proof.
  intros Hrun.
  apply RunMigrations_cases in Hrun
    as [(e & _ & [=])|[(? & ? & e & _ & _ & [=])|[(? & ? & e & _ & _ & _ & [=])|Hrun]]].
  destruct Hrun as (w1 & vs & w2 & ms & c & w3 & Hinit & Hget & Hload & Hloop & ->).
  exists w1, vs, w2, ms. do 3 (split; [done|]).
  destruct (prologue_spec w w1 vs w2 Hinit Hget)
    as (Hlog2 & Hout2 & _ & _ & Ht2 & Hrows2 & _ & _).
  apply apply_pending_trace in Hloop
    as (pre & tl & Hp & -> & Hout & [-> Hlog] & Hrows).
  rewrite app_nil_r, pending_make in Hp. rewrite pending_make in Hrows.
  rewrite Hp in *.
  unfold with_line; cbn [table log stdout].
  rewrite Hlog, Hlog2, Hout, Hout2, <- !app_assoc. do 2 (split; [done|]).
  intros Hk. destruct (Hrows Hk) as (Hr & Ht & Hfresh & Hnd).
  unfold versions in Hfresh. rewrite Hrows2 in Hr, Hfresh.
  split; [|done].
  destruct Ht as [rs Hrs]; [by eexists|].
  unfold rows in Hr at 1. rewrite Hrs in Hr. cbn in Hr. by rewrite Hrs, Hr.
Qed.

(** ** Ordered application of what is pending *)

(** C1. A run that returns nil has ensured the table, read the applied
    versions [vs] and loaded the migrations [ms], and has then applied
    exactly the loaded migrations whose version is not in [vs]: for each of
    them, in ascending version order, the database was sent the body and
    then the insert of the version and the name of that migration, both
    without error, and nothing else. Migrations whose version is in [vs]
    are not executed. When the bodies applied leave the bookkeeping table
    alone, the table has gained exactly these rows, one per migration
    applied, and the versions applied are pairwise distinct. With versions
    1, 2, 3 loaded and 2 applied, the run applies 1 and then 3. *)
Theorem RunMigrations_applies_pending dir w w' :
  RunMigrations dir w = (None, w') ->
  exists vs ms,
    (GetAppliedMigrations (InitMigrationTable w).2).1 = (vs, None) /\
    LoadMigrations dir = (ms, None) /\
    let todo := filter (fun m => Version m ∉ vs) ms in
    log w' = log w ++ [(CreateTable, None); (SelectVersions, None)]
                   ++ flat_map (fun m => [(RunScript (SQL m), None);
                                          (InsertRecord (Version m) (Name m), None)])
                               todo /\
    StronglySorted Z.le (Version <$> todo) /\
    (Forall (fun m => keeps_table (SQL m)) todo ->
     rows w' = rows w ++ ((fun m => (Version m, Name m)) <$> todo) /\
     StronglySorted Z.lt (Version <$> todo)).
Proof.
  intros (w1 & vs & w2 & ms & Hinit & Hget & Hload & Hlog & _ & Hrows)
    %RunMigrations_success.
  exists vs, ms. rewrite Hinit. cbn [snd]. rewrite Hget. cbn [fst].
  do 2 (split; [done|]). cbn zeta.
  fold (pending_of vs ms).
  split; [exact Hlog|].
  assert (Hle : StronglySorted Z.le (Version <$> pending_of vs ms)).
  { eapply StronglySorted_sublist.
    - apply fmap_sublist, pending_of_sublist.
    - pose proof (LoadMigrations_sorted dir) as Hs. by rewrite Hload in Hs. }
  split; [done|].
  intros Hk. destruct (Hrows Hk) as (Ht & _ & Hnd). split.
  - unfold rows at 1. by rewrite Ht.
  - by apply StronglySorted_le_NoDup_lt.
Qed.

End Success.

Lemma RunMigrations_applies_pending_witness :
  exists vs ms,
    (GetAppliedMigrations (InitMigrationTable world2).2).1 = (vs, None) /\
    LoadMigrations (R := small_db) dir123 = (ms, None) /\
    let todo := filter (fun m => Version m ∉ vs) ms in
    log (RunMigrations dir123 world2).2 =
      log world2 ++ [(CreateTable, None); (SelectVersions, None)]
                 ++ flat_map (fun m => [(RunScript (SQL m), None);
                                        (InsertRecord (Version m) (Name m), None)])
                             todo /\
    StronglySorted Z.le (Version <$> todo) /\
    (Forall (fun m => keeps_table (R := small_db) (SQL m)) todo ->
     rows (RunMigrations dir123 world2).2 =
       rows world2 ++ ((fun m => (Version m, Name m)) <$> todo) /\
     StronglySorted Z.lt (Version <$> todo)).
Proof.
  apply (RunMigrations_applies_pending dir123 world2).
  vm_compute. reflexivity.
Defined.

(** The migrations of the example: versions 1 and 3 are not in the set
    that was read. *)
Example todo123 :
  (GetAppliedMigrations (InitMigrationTable world2).2).1 = ([2], None) /\
  filter (fun m => Version m ∉ [2]) [m1; m2; m3] = [m1; m3].
Proof. split; vm_compute; reflexivity. Qed.

Section FirstFailure.

Context {R : Runtime}.

(** C4. When the table was ensured, the versions read and the sources
    loaded, and the run still returns an error, that error is the one of
    the first pending migration [m] whose application failed: for every
    pending migration before [m] in ascending order the body ran and the
    row was inserted, one line was printed for each, the statements of [m]
    up to the failing one are the last the database sees (nothing is
    undone), and no migration after [m] is attempted. When the loaded
    bodies leave the bookkeeping table alone, the rows of the migrations
    before [m] are in the table. *)
Theorem RunMigrations_stops_at_first_failure dir w w1 vs w2 ms e w' :
  InitMigrationTable w = (None, w1) ->
  GetAppliedMigrations w1 = ((vs, None), w2) ->
  LoadMigrations dir = (ms, None) ->
  RunMigrations dir w = (Some e, w') ->
  exists pre m post o,
    filter (fun m => Version m ∉ vs) ms = pre ++ m :: post /\
    o <> Applied /\
    Some e = error_of m o /\
    log w' = log w2 ++ applied_events pre ++ events_of m o /\
    stdout w' = stdout w ++ (line_of <$> pre) /\
    ((forall m, m ∈ ms -> keeps_table (SQL m)) ->
     rows w' = rows w ++ (row_of <$> pre)).
Proof.
  intros Hinit Hget Hload Hrun.
  apply RunMigrations_cases in Hrun
    as [(e0 & Hi & _)|[(? & ? & e0 & Hi & Hg & _)|[(? & ? & e0 & _ & _ & Hl & _)|Hrun]]].
  - congruence.
  - rewrite Hi in Hinit. injection Hinit as <-. congruence.
  - congruence.
  - destruct Hrun as (? & ? & ? & ms' & c & w3 & Hi & Hg & Hl & Hloop & ->).
    rewrite Hi in Hinit. injection Hinit as <-.
    rewrite Hg in Hget. injection Hget as <- <-.
    rewrite Hl in Hload. injection Hload as <-.
    destruct (prologue_spec w _ _ _ Hi Hg) as (_ & Hout2 & _ & _ & _ & Hrows2 & _).
    apply apply_pending_trace in Hloop
      as (pre & tl & Hp & _ & Hout & (m & post & o & -> & Ho & He & Hlog) & Hrows).
    rewrite pending_make in Hp, Hrows.
    exists pre, m, post, o. rewrite Hout, Hout2. do 5 (split; [done|]).
    intros Hk. destruct Hrows as (Hr & _); [|by rewrite Hr, Hrows2].
    apply Forall_forall. intros m' [_ Hm']%list_elem_of_filter. by apply Hk.
Qed.

End FirstFailure.

Lemma RunMigrations_stops_at_first_failure_witness :
  exists pre m post o,
    filter (fun m => Version m ∉ []) [m1; m2; m3] = pre ++ m :: post /\
    o <> Applied /\
    Some (apply_failed m2 "database is locked") = error_of m o /\
    log (RunMigrations dir123 world_failing_2).2 =
      log (GetAppliedMigrations (InitMigrationTable world_failing_2).2).2
        ++ applied_events pre ++ events_of m o /\
    stdout (RunMigrations dir123 world_failing_2).2 =
      stdout world_failing_2 ++ (line_of <$> pre) /\
    ((forall m, m ∈ [m1; m2; m3] -> keeps_table (R := small_db) (SQL m)) ->
     rows (RunMigrations dir123 world_failing_2).2 =
       rows world_failing_2 ++ (row_of <$> pre)).
Proof.
  apply (RunMigrations_stops_at_first_failure dir123 world_failing_2
           (InitMigrationTable world_failing_2).2);
    vm_compute; reflexivity.
Defined.

Example run_failing_2 :
  RunMigrations dir123 world_failing_2 =
    (Some "failed to apply migration 2 (b): database is locked",
     small_world (Some ["a"]) (Some [(1, "a")])
       [ (CreateTable, None); (SelectVersions, None);
         (RunScript add_a, None); (InsertRecord 1 "a", None);
         (RunScript add_b, Some "database is locked") ]
       []
       [ "Applied migration 1: a" ]).
Proof. vm_compute. reflexivity. Qed.

(** A body that the database refuses stops the run in the same way: the
    second migration adds a column that the first has added. *)
Example run_refused :
  RunMigrations
    [ mkFile "1_a.sql" (ReadOk add_a); mkFile "2_a.sql" (ReadOk add_a);
      mkFile "3_c.sql" (ReadOk add_c) ] fresh =
    (Some "failed to apply migration 2 (a): duplicate column name: a",
     small_world (Some ["a"]) (Some [(1, "a")])
       [ (CreateTable, None); (SelectVersions, None);
         (RunScript add_a, None); (InsertRecord 1 "a", None);
         (RunScript add_a, Some "duplicate column name: a") ]
       []
       [ "Applied migration 1: a" ]).
Proof. vm_compute. reflexivity. Qed.

Ltac prologue_events :=
  repeat (apply Forall_cons_2; [cbn; auto|]); apply Forall_nil_2.

Section Idempotence.

Context {R : Runtime}.



End Idempotence.





Example run_wipe_twice :
  table (RunMigrations dir_wipe fresh).2 = Some [(2, "wipe")] /\
  RunMigrations dir_wipe (RunMigrations dir_wipe fresh).2 =
    (None,
     small_world (Some []) (Some [(2, "wipe"); (1, "a")])
       [ (CreateTable, None); (SelectVersions, None);
         (RunScript "SELECT 1;", None); (InsertRecord 1 "a", None);
         (RunScript "DELETE FROM migrations;", None);
         (InsertRecord 2 "wipe", None);
         (CreateTable, None); (SelectVersions, None);
         (RunScript "SELECT 1;", None); (InsertRecord 1 "a", None) ]
       []
       [ "Applied migration 1: a"; "Applied migration 2: wipe";
         "Applied 2 migrations successfully";
         "Applied migration 1: a"; "Applied 1 migrations successfully" ]).
Proof. split; vm_compute; reflexivity. Qed.

(** ** What the database sees in a run *)

Section Trace.

Context {R : Runtime}.

Lemma attempt_events_app l1 l2 :
  attempt_events (l1 ++ l2) = attempt_events l1 ++ attempt_events l2.
Proof. apply flat_map_app. Qed.

(** Whatever a run returns: the database sees statements of the prologue,
    then body and insert of the migrations [pre] that are applied, then
    the statements of at most one call of [ApplyMigration] that fails. The
    migrations come from the loaded slice, in its order. One line is
    printed for each migration of [pre], and a summary when the run
    returns nil. When the loaded bodies leave the bookkeeping table alone,
    the table gains the rows of [pre]. *)
Lemma RunMigrations_trace dir w :
  exists pro pre failed,
    run_events dir w = pro ++ applied_events pre ++ attempt_events failed /\
    Forall is_prologue_event pro /\
    pre ++ failed.*1 `sublist_of` (LoadMigrations dir).1 /\
    Forall (fun a => a.2 <> Applied) failed /\
    ((RunMigrations dir w).1 = None -> failed = []) /\
    stdout (RunMigrations dir w).2 =
      stdout w ++ (line_of <$> pre)
        ++ (if (RunMigrations dir w).1 is None
            then [summary_line (Z.of_nat (length pre))] else []) /\
    ((forall m, m ∈ (LoadMigrations dir).1 -> keeps_table (SQL m)) ->
     rows (RunMigrations dir w).2 = rows w ++ (row_of <$> pre) /\
     Forall (fun m => Version m ∉ versions w) pre /\
     NoDup (Version <$> pre)).
Proof.
  destruct (RunMigrations dir w) as [r w'] eqn:Hrun. cbn [fst snd].
  assert (Hre : forall evs, log w' = log w ++ evs -> run_events dir w = evs).
  { intros evs Hlog. apply run_events_log. by rewrite Hrun. }
  apply RunMigrations_cases in Hrun
    as [(e & Hi & ->)|[(w1 & vs & e & Hi & Hg & ->)|
        [(w1 & vs & e & Hi & Hg & Hl & ->)|Hrun]]].
  - apply InitMigrationTable_spec in Hi as (Hlog & Hout & _ & _ & Hrows & _).
    exists [(CreateTable, Some e)], [], []. cbn. rewrite !app_nil_r.
    split; [by apply Hre|].
    split; [unfold is_prologue_event; prologue_events|].
    split; [apply sublist_nil_l|]. split; [constructor|]. split; [done|].
    split; [done|]. intros _. split; [done|]. split; constructor.
  - apply InitMigrationTable_spec in Hi as (Hlog & Hout & _ & _ & Hrows & _).
    apply GetAppliedMigrations_spec in Hg as (Hlog' & Hout' & _ & _ & Ht' & _).
    exists [(CreateTable, None); (SelectVersions, Some e)], [], [].
    cbn. rewrite !app_nil_r.
    split; [apply Hre; by rewrite Hlog', Hlog, <- app_assoc|].
    split; [unfold is_prologue_event; prologue_events|].
    split; [apply sublist_nil_l|]. split; [constructor|]. split; [done|].
    split; [congruence|]. intros _.
    split; [unfold rows at 1; rewrite Ht'; exact Hrows|]. split; constructor.
  - destruct (prologue_spec w _ _ _ Hi Hg) as (Hlog & Hout & _ & _ & _ & Hrows & _).
    exists [(CreateTable, None); (SelectVersions, None)], [], [].
    cbn. rewrite !app_nil_r.
    split; [by apply Hre|].
    split; [unfold is_prologue_event; prologue_events|].
    split; [apply sublist_nil_l|]. split; [constructor|]. split; [done|].
    split; [done|]. intros _. split; [done|]. split; constructor.
  - destruct Hrun as (w1 & vs & w2 & ms & c & w3 & Hi & Hg & Hl & Hloop & Hw').
    destruct (prologue_spec w _ _ _ Hi Hg) as (Hlog & Hout & _ & _ & _ & Hrows & _).
    rewrite Hl. cbn [fst].
    apply apply_pending_trace in Hloop
      as (pre & tl & Hp & -> & Hout3 & Hr & Hrows3).
    assert (Hsub : pre ++ tl `sublist_of` ms).
    { rewrite <- Hp. apply sublist_filter. }
    assert (Hkeep : (forall m, m ∈ ms -> keeps_table (SQL m)) ->
              rows w3 = rows w ++ (row_of <$> pre) /\
              Forall (fun m => Version m ∉ versions w) pre /\
              NoDup (Version <$> pre)).
    { intros Hk. destruct Hrows3 as (Hr3 & _ & Hfresh & Hnd).
      - apply Forall_forall. intros m [_ Hm]%list_elem_of_filter. by apply Hk.
      - unfold versions in Hfresh. by rewrite Hrows in Hr3, Hfresh. }
    exists [(CreateTable, None); (SelectVersions, None)], pre.
    destruct r as [e|].
    + destruct Hr as (m & post & o & -> & Ho & He & Hlog3). subst w'.
      exists [(m, o)]. cbn [attempt_events flat_map fst snd fmap list_fmap].
      rewrite app_nil_r.
      split; [apply Hre; by rewrite Hlog3, Hlog, <- !app_assoc|].
      split; [unfold is_prologue_event; prologue_events|].
      split.
      { etrans; [|exact Hsub].
        apply sublist_app; [done|]. apply sublist_skip, sublist_nil_l. }
      split; [by constructor|]. split; [done|].
      split; [by rewrite app_nil_r, Hout3, Hout|]. done.
    + destruct Hr as [-> Hlog3]. subst w'. exists [].
      cbn [attempt_events flat_map fst snd fmap list_fmap].
      rewrite !app_nil_r in *.
      split; [apply Hre; unfold with_line; cbn [log];
              by rewrite Hlog3, Hlog, <- !app_assoc|].
      split; [unfold is_prologue_event; prologue_events|].
      split; [done|]. split; [constructor|]. split; [done|].
      unfold with_line. cbn [stdout]. rewrite Hout3, Hout, <- app_assoc.
      replace (0 + Z.of_nat (length pre)) with (Z.of_nat (length pre)) by lia.
      split; [done|].
      intros Hk. unfold rows at 1. cbn [table]. by apply Hkeep.
Qed.

Lemma run_events_spec dir w :
  log (RunMigrations dir w).2 = log w ++ run_events dir w.
Proof.
  unfold run_events.
  destruct (RunMigrations dir w) as [r w'] eqn:Hrun. cbn [snd].
  assert (exists evs, log w' = log w ++ evs) as [evs ->].
  { apply RunMigrations_cases in Hrun
      as [(e & Hi & ->)|[(w1 & vs & e & Hi & Hg & ->)|
          [(w1 & vs & e & Hi & Hg & Hl & ->)|Hrun]]].
    - apply InitMigrationTable_spec in Hi as (Hlog & _). by eexists.
    - apply InitMigrationTable_spec in Hi as (Hlog & _).
      apply GetAppliedMigrations_spec in Hg as (Hlog' & _).
      eexists. by rewrite Hlog', Hlog, <- app_assoc.
    - destruct (prologue_spec w _ _ _ Hi Hg) as (Hlog & _). by eexists.
    - destruct Hrun as (w1 & vs & w2 & ms & c & w3 & Hi & Hg & Hl & Hloop & ->).
      destruct (prologue_spec w _ _ _ Hi Hg) as (Hlog & _).
      apply apply_pending_trace in Hloop as (pre & tl & _ & _ & _ & Hr & _).
      destruct r as [e|].
      + destruct Hr as (m & post & o & _ & _ & _ & ->). rewrite Hlog.
        eexists. by rewrite <- !app_assoc.
      + destruct Hr as [_ Hr]. unfold with_line. cbn [log]. rewrite Hr, Hlog.
        eexists. by rewrite <- !app_assoc. }
  by rewrite drop_app_length.
Qed.



Lemma elem_of_attempt_events ev attempts :
  ev ∈ attempt_events attempts ->
  exists m o, m ∈ attempts.*1 /\ ev ∈ events_of m o.
Proof.
  induction attempts as [|[m o] attempts IH].
  - intros []%elem_of_nil.
  - unfold attempt_events. cbn [flat_map fst snd].
    intros [Hev|Hev]%elem_of_app.
    + exists m, o. split; [left|done].
    + destruct (IH Hev) as (m' & o' & Hm' & Hev').
      exists m', o'. split; [by right|done].
Qed.

Lemma attempt_events_applied pre :
  attempt_events ((fun m => (m, Applied)) <$> pre) = applied_events pre.
Proof.
  induction pre as [|m pre IH]; [done|].
  unfold attempt_events, applied_events in *. cbn [fmap list_fmap flat_map].
  by rewrite <- IH.
Qed.

Lemma attempts_applied_fst (pre : list Migration) :
  ((fun m => (m, Applied)) <$> pre).*1 = pre.
Proof. induction pre as [|m pre IH]; [done|]. cbn. by rewrite IH. Qed.

(** What the database sees in a run: statements of the prologue, then the
    statements of calls of [ApplyMigration] on a sublist of the loaded
    migrations, in the order of the list. *)
Lemma RunMigrations_attempts dir w :
  exists pro attempts,
    run_events dir w = pro ++ attempt_events attempts /\
    Forall is_prologue_event pro /\
    attempts.*1 `sublist_of` (LoadMigrations dir).1.
Proof.
  destruct (RunMigrations_trace dir w)
    as (pro & pre & failed & Hev & Hpro & Hsub & _).
  exists pro, (((fun m => (m, Applied)) <$> pre) ++ failed).
  rewrite attempt_events_app, attempt_events_applied, fmap_app,
    attempts_applied_fst. done.
Qed.

Lemma scripts_run_prologue pro : Forall is_prologue_event pro -> scripts_run pro = [].
Proof.
  induction 1 as [|[c o] pro [Hc|Hc] _ IH]; [done|..];
    simpl in Hc; subst c; exact IH.
Qed.

Lemma scripts_run_attempts attempts :
  scripts_run (attempt_events attempts) = SQL <$> attempts.*1.
Proof.
  induction attempts as [|[m o] attempts IH]; [done|].
  unfold attempt_events in *. cbn [flat_map fst snd].
  unfold scripts_run in *. rewrite omap_app, IH. by destruct o.
Qed.

End Trace.

Ltac event_cases H :=
  repeat (apply elem_of_cons in H as [H|H]);
  try (by apply elem_of_nil in H); by simplify_eq.

(** ** Rows follow executed bodies *)

Section Invariant.

Context {R : Runtime}.

Context (known : Migration -> Prop).

Lemma guarded_app l1 l2 :
  guarded known l1 -> guarded known l2 -> guarded known (l1 ++ l2).
Proof.
  intros H1 H2 i v n o [Hi|[Hlen Hi]]%lookup_app_Some.
  - destruct (H1 _ _ _ _ Hi) as (j & m & -> & Hm & Hv & Hn & Hj).
    exists j, m. do 4 (split; [done|]). by apply lookup_app_l_Some.
  - destruct (H2 _ _ _ _ Hi) as (j & m & Hij & Hm & Hv & Hn & Hj).
    exists (length l1 + j)%nat, m. split; [lia|]. do 3 (split; [done|]).
    rewrite lookup_app_r by lia.
    by replace (length l1 + j - length l1)%nat with j by lia.
Qed.

Lemma guarded_nil : guarded known [].
Proof. intros i v n o Hi. by rewrite lookup_nil in Hi. Qed.

Lemma guarded_events_of m o : known m -> guarded known (events_of m o).
Proof.
  intros Hm i v n o'. destruct o; simpl.
  - destruct i as [|[|i]]; simpl; [done| |done].
    intros [= <- <- _]. by exists 0%nat, m.
  - destruct i as [|i]; simpl; done.
  - destruct i as [|[|i]]; simpl; [done| |done].
    intros [= <- <- _]. by exists 0%nat, m.
Qed.

Lemma guarded_applied_events ms :
  Forall known ms -> guarded known (applied_events ms).
Proof.
  induction 1 as [|m ms Hm _ IH]; [apply guarded_nil|].
  unfold applied_events. cbn [flat_map].
  apply guarded_app; [by apply (guarded_events_of m Applied)|exact IH].
Qed.

Lemma guarded_attempt_events attempts :
  Forall known attempts.*1 -> guarded known (attempt_events attempts).
Proof.
  induction attempts as [|[m o] attempts IH]; [intros _; apply guarded_nil|].
  cbn [fmap list_fmap fst]. intros [Hm Hall]%Forall_cons.
  unfold attempt_events. cbn [flat_map fst snd].
  apply guarded_app; [by apply guarded_events_of|by apply IH].
Qed.

Lemma guarded_prologue pro : Forall is_prologue_event pro -> guarded known pro.
Proof.
  intros Hpro i v n o Hi.
  rewrite Forall_forall in Hpro.
  destruct (Hpro (InsertRecord v n, o)) as [Hc|Hc]; [|done..].
  by eapply list_elem_of_lookup_2.
Qed.

Lemma applied_in_app_l l evs m : applied_in l m -> applied_in (l ++ evs) m.
Proof.
  intros (l1 & l2 & ->). exists l1, (l2 ++ evs). by rewrite <- !app_assoc.
Qed.

Lemma applied_in_app_r l evs m : applied_in evs m -> applied_in (l ++ evs) m.
Proof.
  intros (l1 & l2 & ->). exists (l ++ l1), l2. by rewrite <- !app_assoc.
Qed.

Lemma applied_in_applied_events ms m : m ∈ ms -> applied_in (applied_events ms) m.
Proof.
  intros (p1 & p2 & ->)%list_elem_of_split.
  exists (applied_events p1), (applied_events p2).
  rewrite applied_events_app. done.
Qed.

(** What a step sends, and the rows it adds when the bodies it is given
    leave the bookkeeping table alone. *)
Lemma step_trace op w :
  (forall m, given op m -> known m) ->
  exists evs,
    log (step op w) = log w ++ evs /\
    guarded known evs /\
    ((forall m, given op m -> keeps_table (SQL m)) ->
     exists new,
       rows (step op w) = rows w ++ (row_of <$> new) /\
       Forall (fun m => Version m ∉ versions w) new /\
       NoDup (Version <$> new) /\
       forall m, m ∈ new -> known m /\ applied_in evs m).
Proof.
  intros Hknown. destruct op as [| |dir|m|dir]; cbn [step given] in *.
  - destruct (InitMigrationTable w) as [o w1] eqn:Hi. cbn [snd].
    apply InitMigrationTable_spec in Hi as (Hlog & _ & _ & _ & Hrows & _).
    exists [(CreateTable, o)]. split; [done|].
    split; [apply guarded_prologue; unfold is_prologue_event; prologue_events|].
    intros _. exists []. rewrite app_nil_r. split; [done|].
    split; [constructor|]. split; [constructor|]. by intros m []%elem_of_nil.
  - destruct (GetAppliedMigrations w) as [[vs o] w1] eqn:Hg. cbn [snd].
    apply GetAppliedMigrations_spec in Hg as (Hlog & _ & _ & _ & Ht & _).
    exists [(SelectVersions, o)]. split; [done|].
    split; [apply guarded_prologue; unfold is_prologue_event; prologue_events|].
    intros _. exists []. rewrite app_nil_r. unfold rows. rewrite Ht.
    split; [done|]. split; [constructor|]. split; [constructor|].
    by intros m []%elem_of_nil.
  - exists []. rewrite app_nil_r. split; [done|]. split; [apply guarded_nil|].
    intros _. exists []. rewrite app_nil_r. split; [done|].
    split; [constructor|]. split; [constructor|]. by intros m []%elem_of_nil.
  - destruct (ApplyMigration m w) as [r w1] eqn:Ha. cbn [snd].
    apply ApplyMigration_spec in Ha as (_ & Hlog & _ & Hrows).
    exists (events_of m (outcome_of m w)). split; [done|].
    split; [by apply guarded_events_of, Hknown|].
    intros Hk. destruct (Hrows (Hk m eq_refl)) as (Hr & _ & Hnew).
    destruct (outcome_of m w) eqn:Ho.
    + exists [m]. split; [done|]. split; [constructor; [by apply Hnew|constructor]|].
      split; [apply NoDup_singleton|].
      intros m' ->%list_elem_of_singleton. split; [by apply Hknown|].
      by exists [], [].
    + exists []. split; [done|]. split; [constructor|]. split; [constructor|].
      by intros m' []%elem_of_nil.
    + exists []. split; [done|]. split; [constructor|]. split; [constructor|].
      by intros m' []%elem_of_nil.
  - destruct (RunMigrations_trace dir w)
      as (pro & pre & failed & Hev & Hpro & Hsub & _ & _ & _ & Hrows).
    assert (Hall : forall m, m ∈ pre ++ failed.*1 -> known m).
    { intros m Hm. apply Hknown. by eapply elem_of_sublist. }
    exists (run_events dir w). split; [apply run_events_spec|].
    split.
    { rewrite Hev. apply guarded_app; [by apply guarded_prologue|].
      apply guarded_app.
      - apply guarded_applied_events, Forall_forall. intros m Hm.
        apply Hall, elem_of_app. by left.
      - apply guarded_attempt_events, Forall_forall. intros m Hm.
        apply Hall, elem_of_app. by right. }
    intros Hk. destruct (Hrows Hk) as (Hr & Hfresh & Hnd).
    exists pre. do 3 (split; [done|]).
    intros m Hm. split; [apply Hall, elem_of_app; by left|].
    rewrite Hev. apply applied_in_app_r, applied_in_app_l.
    by apply applied_in_applied_events.
Qed.


(** Hence both hold in every world the operations can reach from a
    database without rows in the bookkeeping table. *)
Lemma reachable_recorded_after_body ops w :
  rows w = [] -> log w = [] ->
  (forall op m, op ∈ ops -> given op m -> known m /\ keeps_table (SQL m)) ->
  guarded known (log (foldr step w ops)) /\
  recorded_after_body known (foldr step w ops).
Proof.
  intros Hrows Hlog.
  induction ops as [|op ops IH]; intros Hops; simpl.
  - rewrite Hlog. split; [apply guarded_nil|].
    intros row. rewrite Hrows. by intros []%elem_of_nil.
  - destruct IH as [Hg Hr].
    { intros op' m Hop'. apply Hops. by right. }
    destruct (step_trace op (foldr step w ops)) as (evs & Hl & Hevs & Hnew).
    { intros m Hm. apply (Hops op m); [left|done]. }
    split; [rewrite Hl; by apply guarded_app|].
    destruct Hnew as (new & Hr' & _ & _ & Hin).
    { intros m Hm. apply (Hops op m); [left|done]. }
    intros row. rewrite Hr'.
    intros [Hold|(m & -> & Hm)%list_elem_of_fmap]%elem_of_app.
    + destruct (Hr row Hold) as (m & Hm & Hrow & Happ).
      exists m. do 2 (split; [done|]). rewrite Hl. by apply applied_in_app_l.
    + destruct (Hin m Hm) as [Hkm Happ].
      exists m. do 2 (split; [done|]). rewrite Hl. by apply applied_in_app_r.
Qed.

End Invariant.



Example apply_seed :
  ApplyMigration seed empty_table =
    (None,
     small_world (Some []) (Some [(2, "ghost"); (1, "seed")])
       [ (RunScript (SQL seed), None); (InsertRecord 1 "seed", None) ]
       [] [ "Applied migration 1: seed" ]).
Proof. vm_compute. reflexivity. Qed.

(** ** A record insert that fails *)

Section RecordFailure.

Context {R : Runtime}.


End RecordFailure.


(** The body of [m1] has run twice: the second time the column is there,
    and the body fails. *)
Example reapply_m1 :
  (RunMigrations dir123 (ApplyMigration m1 world_disk_full).2).1 =
    Some "failed to apply migration 1 (a): duplicate column name: a".
Proof. vm_compute. reflexivity. Qed.


(** Two sources with version 1, through [RunMigrations]: the first run
    records version 1 for one of them and fails on the insert of the
    other, whose body ran; the next run skips both. *)
Example run_dup :
  RunMigrations dir_dup fresh =
    (Some "failed to record migration 1: UNIQUE constraint failed: migrations.version",
     small_world (Some ["b"; "a"]) (Some [(1, "b")])
       [ (CreateTable, None); (SelectVersions, None);
         (RunScript add_b, None); (InsertRecord 1 "b", None);
         (RunScript add_a, None); (InsertRecord 1 "a", Some unique_failed) ]
       [] [ "Applied migration 1: b" ]).
Proof. vm_compute. reflexivity. Qed.

Example run_dup_again :
  RunMigrations dir_dup (RunMigrations dir_dup fresh).2 =
    (None,
     small_world (Some ["b"; "a"]) (Some [(1, "b")])
       [ (CreateTable, None); (SelectVersions, None);
         (RunScript add_b, None); (InsertRecord 1 "b", None);
         (RunScript add_a, None); (InsertRecord 1 "a", Some unique_failed);
         (CreateTable, None); (SelectVersions, None) ]
       [] [ "Applied migration 1: b"; "No pending migrations to apply" ]).
Proof. vm_compute. reflexivity. Qed.

(** A body that writes the row of its own version: the insert is refused,
    and the next run skips the migration. *)
Example run_ghost :
  RunMigrations
    [mkFile "2_g.sql"
       (ReadOk "INSERT INTO migrations (version, name) VALUES (2, 'ghost');")]
    fresh =
    (Some "failed to record migration 2: UNIQUE constraint failed: migrations.version",
     small_world (Some []) (Some [(2, "ghost")])
       [ (CreateTable, None); (SelectVersions, None);
         (RunScript "INSERT INTO migrations (version, name) VALUES (2, 'ghost');",
          None);
         (InsertRecord 2 "g", Some unique_failed) ]
       [] []).
Proof. vm_compute. reflexivity. Qed.

(** ** Error messages *)

(** The error of a failed record insert names the version only. *)
Lemma apply_errors_carry_context_counterexample :
  ~ apply_errors_carry_context add_starred_column world_disk_full.
Proof.
  intros H.
  destruct (H "failed to record migration 1: disk full" eq_refl) as [_ Hname].
  vm_compute in Hname. discriminate Hname.
Qed.

Example init_error :
  RunMigrations dir123
    (small_world (Some []) None [] [Some (Fail "database is locked")] []) =
    (Some "failed to initialize migration table: database is locked",
     small_world (Some []) None [(CreateTable, Some "database is locked")] [] []).
Proof. vm_compute. reflexivity. Qed.

Example load_error :
  (RunMigrations dir_unreadable fresh).1 =
    Some "failed to load migrations: failed to read migration file migrations/002_b.sql: permission denied".
Proof. vm_compute. reflexivity. Qed.

Section Errors.

Context {R : Runtime}.

(** C9, amended. Every error is returned to the caller after one attempt:
    the failing statement is the last one the database sees. An error of
    [ApplyMigration] is the database error wrapped with the version and
    the name when the body failed, and with the version only when the
    record insert failed. An error of [RunMigrations] is the database
    error wrapped with the step that failed, when the table could not be
    ensured or the versions not read; the read error wrapped with the step
    and with the path of the source that could not be read, when loading
    failed; or the error of [ApplyMigration] for one of the loaded
    migrations, unchanged. *)
Theorem errors_wrapped_and_propagated :
  (forall m w e w',
     ApplyMigration m w = (Some e, w') ->
     (exists e0,
         e = "failed to apply migration " +:+ Itoa (Version m) +:+ " ("
               +:+ Name m +:+ "): " +:+ e0 /\
         log w' = log w ++ [(RunScript (SQL m), Some e0)])
     \/ (exists e0,
         e = "failed to record migration " +:+ Itoa (Version m) +:+ ": " +:+ e0 /\
         log w' = log w ++ [(RunScript (SQL m), None);
                            (InsertRecord (Version m) (Name m), Some e0)]))
  /\
  (forall dir w e w',
     RunMigrations dir w = (Some e, w') ->
     (exists e0,
         e = "failed to initialize migration table: " +:+ e0 /\
         log w' = log w ++ [(CreateTable, Some e0)])
     \/ (exists e0,
         e = "failed to get applied migrations: " +:+ e0 /\
         log w' = log w ++ [(CreateTable, None); (SelectVersions, Some e0)])
     \/ (exists file e0,
         file ∈ dir /\ file_data file = ReadErr e0 /\
         e = "failed to load migrations: failed to read migration file migrations/"
               +:+ file_name file +:+ ": " +:+ e0 /\
         log w' = log w ++ [(CreateTable, None); (SelectVersions, None)])
     \/ (exists ms m o l,
         LoadMigrations dir = (ms, None) /\ m ∈ ms /\
         o <> Applied /\ Some e = error_of m o /\
         log w' = l ++ events_of m o)).
Proof.
  split.
  - intros m w e w' (He & Hlog & _)%ApplyMigration_spec.
    destruct (outcome_of m w) as [|e0|e0]; [done|..]; injection He as ->.
    + left. exists e0. split; [|done].
      unfold apply_failed, wrap. by rewrite !string_app_assoc.
    + right. exists e0. split; [|done].
      unfold record_failed, wrap. by rewrite !string_app_assoc.
  - intros dir w e w' Hrun.
    apply RunMigrations_cases in Hrun
      as [(e0 & Hi & [= ->])|[(w1 & vs & e0 & Hi & Hg & [= ->])|
          [(w1 & vs & e0 & Hi & Hg & Hl & [= ->])|Hrun]]].
    + left. exists e0. split; [done|].
      by apply InitMigrationTable_spec in Hi as (Hlog & _).
    + right; left. exists e0. split; [done|].
      apply InitMigrationTable_spec in Hi as (Hlog & _).
      apply GetAppliedMigrations_spec in Hg as (Hlog' & _).
      by rewrite Hlog', Hlog, <- app_assoc.
    + right; right; left.
      destruct (prologue_spec w _ _ _ Hi Hg) as (Hlog & _).
      unfold LoadMigrations in Hl.
      destruct (load_files [] (Glob dir)) as [e'|ms'] eqn:Hfiles; [|done].
      injection Hl as ->.
      apply load_files_inl in Hfiles as (file & e1 & Hin & _ & Hd & ->).
      rewrite Glob_Permutation in Hin. apply list_elem_of_filter in Hin as [_ Hin].
      exists file, e1. do 2 (split; [done|]). split; [|done].
      unfold wrap. by rewrite !string_app_assoc.
    + right; right; right.
      destruct Hrun as (w1 & vs & w2 & ms & c & w3 & _ & _ & Hl & Hloop & ->).
      apply apply_pending_trace in Hloop
        as (pre & tl & Hp & _ & _ & (m & post & o & -> & Ho & He & Hlog) & _).
      exists ms, m, o, (log w2 ++ applied_events pre).
      split; [done|]. split; [|split; [done|split; [done|]]].
      * assert (Hm : m ∈ pending (make_appliedMap vs) ms).
        { rewrite Hp. apply elem_of_app. right. left. }
        by apply list_elem_of_filter in Hm as [_ ?].
      * by rewrite Hlog, <- app_assoc.
Qed.

End Errors.

Lemma errors_wrapped_and_propagated_witness :
  (exists e0,
      "failed to record migration 1: disk full" =
        "failed to apply migration " +:+ Itoa (Version add_starred_column) +:+ " ("
          +:+ Name add_starred_column +:+ "): " +:+ e0 /\
      log (ApplyMigration add_starred_column world_disk_full).2 =
        log world_disk_full ++ [(RunScript (SQL add_starred_column), Some e0)])
  \/ (exists e0,
      "failed to record migration 1: disk full" =
        "failed to record migration " +:+ Itoa (Version add_starred_column)
          +:+ ": " +:+ e0 /\
      log (ApplyMigration add_starred_column world_disk_full).2 =
        log world_disk_full ++
          [(RunScript (SQL add_starred_column), None);
           (InsertRecord (Version add_starred_column) (Name add_starred_column),
            Some e0)]).
Proof.
  apply (proj1 errors_wrapped_and_propagated add_starred_column world_disk_full).
  vm_compute. reflexivity.
Defined.

(** ** Applying a migration that is already recorded *)


Section Reapply.

Context {R : Runtime}.


End Reapply.


Example reapply_probe :
  ApplyMigration probe (small_world (Some []) (Some [(1, "probe")]) [] [] []) =
    (Some "failed to record migration 1: UNIQUE constraint failed: migrations.version",
     small_world (Some []) (Some [(1, "probe")])
       [(RunScript "SELECT 1;", None); (InsertRecord 1 "probe", Some unique_failed)]
       [] []).
Proof. vm_compute. reflexivity. Qed.

Example reapply_starred :
  ApplyMigration add_starred_column world_starred =
    (Some "failed to apply migration 1 (add_starred_column): duplicate column name: starred",
     small_world (Some ["starred"]) (Some [(1, "add_starred_column")])
       [(RunScript (SQL add_starred_column), Some "duplicate column name: starred")]
       [] []).
Proof. vm_compute. reflexivity. Qed.

(** ** The order in which migrations are visited *)

(** Two sources with version 1: both bodies are sent, the versions visited
    are 1 and 1. *)
Lemma visits_strictly_ascending_counterexample :
  ~ visits_strictly_ascending dir_dup fresh.
Proof.
  intros H.
  specialize (H [mkMigration 1 "b" add_b; mkMigration 1 "a" add_a]).
  assert (Hs : StronglySorted Z.lt [1; 1]).
  { apply H; vm_compute; reflexivity. }
  apply StronglySorted_cons in Hs as [Hs _].
  apply Forall_cons in Hs as [Hs _]. lia.
Qed.

Section Visits.

Context {R : Runtime}.

(** C6, amended. The loop ranges over the loaded migrations in ascending
    version order. The migrations whose bodies a run sends to the database
    are a sublist of the loaded list, sent in the order of the list: their
    versions never decrease, and they increase strictly when no two
    sources have the same version. *)
Theorem visits_ascending dir w :
  StronglySorted Z.le (Version <$> (LoadMigrations dir).1) /\
  exists visited,
    visited `sublist_of` (LoadMigrations dir).1 /\
    scripts_run (run_events dir w) = SQL <$> visited /\
    StronglySorted Z.le (Version <$> visited) /\
    (NoDup (Version <$> (LoadMigrations dir).1) ->
     StronglySorted Z.lt (Version <$> visited)).
Proof.
  pose proof (LoadMigrations_sorted dir) as Hsorted.
  split; [done|].
  destruct (RunMigrations_attempts dir w) as (pro & attempts & Hev & Hpro & Hsub).
  exists (attempts.*1). split; [done|].
  split.
  { rewrite Hev. unfold scripts_run. rewrite omap_app.
    fold (scripts_run pro) (scripts_run (attempt_events attempts)).
    by rewrite scripts_run_prologue, scripts_run_attempts. }
  assert (Hle : StronglySorted Z.le (Version <$> attempts.*1)).
  { eapply StronglySorted_sublist; [|exact Hsorted]. by apply fmap_sublist. }
  split; [done|].
  intros Hnd. apply StronglySorted_le_NoDup_lt; [done|].
  eapply sublist_NoDup; [exact Hnd|by apply fmap_sublist].
Qed.

End Visits.

Lemma visits_ascending_witness :
  exists visited,
    visited `sublist_of` (LoadMigrations (R := small_db) dir123).1 /\
    scripts_run (run_events dir123 world2) = SQL <$> visited /\
    StronglySorted Z.lt (Version <$> visited).
Proof.
  destruct (visits_ascending dir123 world2)
    as (_ & visited & Hsub & Hrun & _ & Hlt).
  exists visited. split; [done|]. split; [done|].
  apply Hlt. apply (bool_decide_unpack _). vm_compute. exact I.
Defined.

(** ** Versions and sources passed over *)

(** [Atoi] accepts a sign: the source [-5_down.sql] is loaded with version
    -5. *)
Lemma versions_nonnegative_counterexample :
  ~ versions_nonnegative (R := small_db) dir_negative.
Proof.
  intros H.
  specialize (H (mkMigration (-5) "down" "DROP TABLE messages;")).
  assert (0 <= -5); [|lia].
  apply H. vm_compute. left.
Qed.

Example run_negative :
  RunMigrations dir_negative fresh =
    (None,
     small_world None (Some [(-5, "down")])
       [ (CreateTable, None); (SelectVersions, None);
         (RunScript "DROP TABLE messages;", None);
         (InsertRecord (-5) "down", None) ]
       [] [ "Applied migration -5: down"; "Applied 1 migrations successfully" ]).
Proof. vm_compute. reflexivity. Qed.

Section Discovery.

Context {R : Runtime}.

(** C7, amended. When discovery succeeds, the migrations loaded are exactly
    those of the readable [.sql] sources whose name parses; the version of
    each is the integer [Atoi] reads from the text before the first
    underscore, a 64-bit integer that may be zero or negative. A source
    whose name does not parse is passed over without being read and
    without an error: the loop keeps its slice, and a directory that has
    more such sources is discovered without error as well. A run sends
    only bodies, and inserts only versions and names, of loaded
    migrations: nothing is executed or recorded for a source that was
    passed over. *)
Theorem discovery_versions_and_skips dir ms :
  LoadMigrations dir = (ms, None) ->
  (forall m,
     m ∈ ms <-> exists f, f ∈ dir /\ is_sql f /\ migration_of f = Some m) /\
  (forall m,
     m ∈ ms ->
     min_int <= Version m <= max_int /\
     exists f p rest,
       f ∈ dir /\ cut "_" (file_name f) = Some (p, rest) /\
       Atoi p = Some (Version m)) /\
  (forall f acc,
     parses (file_name f) = false ->
     migration_of f = None /\ load_file acc f = inr acc) /\
  (forall dir',
     (forall f, f ∈ dir' -> f ∈ dir \/ parses (file_name f) = false) ->
     (LoadMigrations dir').2 = None) /\
  (forall w sql o,
     (RunScript sql, o) ∈ run_events dir w -> exists m, m ∈ ms /\ sql = SQL m) /\
  (forall w v n o,
     (InsertRecord v n, o) ∈ run_events dir w ->
     exists m, m ∈ ms /\ v = Version m /\ n = Name m).
Proof.
  intros Hload.
  assert (Hiff : forall m,
            m ∈ ms <-> exists f, f ∈ dir /\ is_sql f /\ migration_of f = Some m).
  { intros m. rewrite (LoadMigrations_Permutation _ _ Hload), list_elem_of_omap.
    split.
    - intros (f & [Hsql Hf]%list_elem_of_filter & Hm). by exists f.
    - intros (f & Hf & Hsql & Hm). exists f. split; [|done].
      by apply list_elem_of_filter. }
  assert (Hevents : forall w ev,
            ev ∈ run_events dir w ->
            (exists m o, m ∈ ms /\ ev ∈ events_of m o) \/ is_prologue_event ev).
  { intros w ev Hev.
    destruct (RunMigrations_attempts dir w) as (pro & attempts & Hrun & Hpro & Hsub).
    rewrite Hload in Hsub. cbn [fst] in Hsub.
    rewrite Hrun in Hev. apply elem_of_app in Hev as [Hev|Hev].
    - right. rewrite Forall_forall in Hpro. by apply Hpro.
    - left. apply elem_of_attempt_events in Hev as (m & o & Hm & Hev).
      exists m, o. split; [|done]. by eapply elem_of_sublist. }
  split; [exact Hiff|]. split; [|split; [|split; [|split]]].
  - intros m (f & Hf & _ & (p & rest & Hcut & Hv & _)%migration_of_Some)%Hiff.
    split; [by eapply Atoi_range|]. by exists f, p, rest.
  - intros f acc Hp. split; [|by apply load_file_skip].
    unfold migration_of. unfold parses in Hp.
    destruct (SplitN2_shape (file_name f)) as [(p & r & Hs & _)|[Hs _]];
      rewrite Hs in Hp |- *; [|done].
    case_bool_decide as Hsome; [done|].
    destruct (Atoi p); [|done]. destruct Hsome. by eexists.
  - intros dir' Hdir'. apply LoadMigrations_succeeds_iff.
    intros f [Hf|Hnp]%Hdir' Hsql Hp; [|congruence].
    assert (Hok : (LoadMigrations dir).2 = None) by (by rewrite Hload).
    rewrite LoadMigrations_succeeds_iff in Hok. by apply Hok.
  - intros w sql o [(m & o' & Hm & Hev)|[Hc|Hc]]%Hevents; [|done..].
    exists m. split; [done|].
    destruct o'; cbn in Hev; event_cases Hev.
  - intros w v n o [(m & o' & Hm & Hev)|[Hc|Hc]]%Hevents; [|done..].
    exists m. split; [done|].
    destruct o'; cbn in Hev; event_cases Hev.
Qed.

End Discovery.

Lemma discovery_versions_and_skips_witness :
  min_int <= 2 <= max_int /\
  exists f p rest,
    f ∈ dir123 /\ cut "_" (file_name f) = Some (p, rest) /\ Atoi p = Some 2.
Proof.
  destruct (discovery_versions_and_skips (R := small_db) dir123 [m1; m2; m3])
    as (_ & Hversion & _); [vm_compute; reflexivity|].
  apply (Hversion m2). right. left.
Defined.

(** ** The name of a source *)

Section Names.

Context {R : Runtime}.

(** C8. A source of the directory named [<p>_<n>.sql], where [p] has no
    underscore and is read by [Atoi] as [v], is split at its first
    underscore, and a successful discovery has the migration with version
    [v], name [n] (the text after that underscore, without the final
    [.sql]) and the whole content of the file as its SQL. *)
Theorem LoadMigrations_parses_source dir ms file p v n :
  LoadMigrations dir = (ms, None) ->
  file ∈ dir ->
  file_name file = p +:+ "_" +:+ n +:+ ".sql" ->
  no_sep "_" p ->
  Atoi p = Some v ->
  SplitN2 (file_name file) "_" = [p; n +:+ ".sql"] /\
  exists body,
    file_data file = ReadOk body /\
    mkMigration v n body ∈ ms.
Proof.
  intros Hload Hfile Hname Hp Hv.
  assert (Hsplit : SplitN2 (file_name file) "_" = [p; n +:+ ".sql"]).
  { rewrite Hname. by apply SplitN2_app. }
  split; [done|].
  assert (Hsql : is_sql file).
  { unfold is_sql. rewrite Hname.
    replace (p +:+ "_" +:+ n +:+ ".sql") with ((p +:+ "_" +:+ n) +:+ ".sql")
      by (by rewrite !string_app_assoc).
    by rewrite HasSuffix_app. }
  assert (Hparses : parses (file_name file) = true).
  { unfold parses. rewrite Hsplit. apply bool_decide_eq_true_2. by eexists. }
  assert (Hok : (LoadMigrations dir).2 = None) by (by rewrite Hload).
  rewrite LoadMigrations_succeeds_iff in Hok.
  destruct (Hok file Hfile Hsql Hparses) as [body Hbody].
  exists body. split; [done|].
  rewrite (LoadMigrations_Permutation _ _ Hload), list_elem_of_omap.
  exists file. split; [by apply list_elem_of_filter|].
  unfold migration_of. by rewrite Hsplit, Hv, Hbody, TrimSuffix_app.
Qed.

End Names.

Lemma LoadMigrations_parses_source_witness :
  SplitN2 "001_add_starred_column.sql" "_" = ["001"; "add_starred_column.sql"] /\
  exists body,
    ReadOk (SQL add_starred_column) = ReadOk body /\
    mkMigration 1 "add_starred_column" body ∈ [add_starred_column].
Proof.
  apply (LoadMigrations_parses_source (R := small_db) dir_repo [add_starred_column]
           (mkFile "001_add_starred_column.sql" (ReadOk (SQL add_starred_column)))
           "001" 1 "add_starred_column").
  - vm_compute. reflexivity.
  - left.
  - reflexivity.
  - apply cut_None_no_sep. reflexivity.
  - reflexivity.
Defined.

(** * Further properties of the code *)

(** ** The bookkeeping table only grows *)

Section Growth.

Context {R : Runtime}.



End Growth.




(** ** What a run prints *)

Section Printing.

Context {R : Runtime}.


End Printing.

(** ** Runs without faults *)

Section NoFaults.

Context {R : Runtime}.


Lemma no_faults_head w :
  no_faults w -> forall e, head (faults w) <> Some (Some (Fail e)).
Proof.
  unfold no_faults. destruct (faults w) as [|f fs]; [done|].
  intros [-> _]%Forall_cons. done.
Qed.

Lemma no_faults_reads_all n w : no_faults w -> reads_all n w.
Proof.
  unfold no_faults, reads_all. intros Hw k Hk.
  rewrite Forall_forall in Hw.
  by specialize (Hw _ (list_elem_of_lookup_2 _ _ _ Hk)).
Qed.








End NoFaults.






(** A body that cannot run twice: after a run that failed in the driver
    on the insert of the first migration, no later run completes. *)
Example rerun_fails :
  (RunMigrations dir123
     (RunMigrations dir123
        (small_world (Some []) None [] [None; None; None; Some (Fail "disk full")] [])).2).1 =
    Some "failed to apply migration 1 (a): duplicate column name: a".
Proof. vm_compute. reflexivity. Qed.

(** ** Runs that apply nothing *)

Section Nothing.

Context {R : Runtime}.

Lemma RunMigrations_before_loop dir w r w' :
  RunMigrations dir w = (r, w') ->
  (r <> None /\ rows w' = rows w /\ Forall is_prologue_event (run_events dir w))
  \/ (exists w1 vs w2 ms c w3,
      InitMigrationTable w = (None, w1) /\
      GetAppliedMigrations w1 = ((vs, None), w2) /\
      LoadMigrations dir = (ms, None) /\
      apply_pending (make_appliedMap vs) ms 0 w2 = ((c, r), w3) /\
      w' = if r is None then with_line (summary_line c) w3 else w3).
Proof.
  intros Hrun.
  assert (Hre : forall evs, log w' = log w ++ evs -> run_events dir w = evs).
  { intros evs Hlog. apply run_events_log. by rewrite Hrun. }
  apply RunMigrations_cases in Hrun
    as [(e & Hi & ->)|[(w1 & vs & e & Hi & Hg & ->)|
        [(w1 & vs & e & Hi & Hg & Hl & ->)|Hrun]]].
  - left. apply InitMigrationTable_spec in Hi as (Hlog & _ & _ & _ & Hrows & _).
    split; [done|]. split; [done|].
    rewrite (Hre _ Hlog). unfold is_prologue_event. prologue_events.
  - left. apply InitMigrationTable_spec in Hi as (Hlog & _ & _ & _ & Hrows & _).
    apply GetAppliedMigrations_spec in Hg as (Hlog' & _ & _ & _ & Ht' & _).
    split; [done|]. split; [unfold rows at 1; by rewrite Ht'|].
    rewrite (Hre [(CreateTable, None); (SelectVersions, Some e)])
      by (by rewrite Hlog', Hlog, <- app_assoc).
    unfold is_prologue_event. prologue_events.
  - left. destruct (prologue_spec w _ _ _ Hi Hg) as (Hlog & _ & _ & _ & _ & Hrows & _).
    split; [done|]. split; [done|].
    rewrite (Hre _ Hlog). unfold is_prologue_event. prologue_events.
  - by right.
Qed.

(** X5. A migration is skipped by its version alone. When every loaded
    migration has its version in the bookkeeping table and the read of the
    versions is not cut short, a run executes no body and inserts no row,
    whatever the names and bodies of the sources are: a source changed
    after it was applied is not applied again. *)
Theorem RunMigrations_skips_recorded_versions dir w ms :
  LoadMigrations dir = (ms, None) ->
  (forall m, m ∈ ms -> Version m ∈ versions w) ->
  reads_all 1 w ->
  rows (RunMigrations dir w).2 = rows w /\
  Forall is_prologue_event (run_events dir w).
Proof.
  intros Hload Hall Hread.
  destruct (RunMigrations dir w) as [r w'] eqn:Hrun. cbn [snd].
  pose proof Hrun as [(_ & Hrows & Hev)|
    (w1 & vs & w2 & ms' & c & w3 & Hi & Hg & Hl & Hloop & Hw')]
    %RunMigrations_before_loop; [done|].
  rewrite Hl in Hload. injection Hload as ->.
  destruct (prologue_spec w _ _ _ Hi Hg) as (Hlog & _ & _ & _ & _ & Hrows & _ & Hvs).
  rewrite apply_pending_nothing in Hloop.
  - injection Hloop as <- <- <-. subst w'. split; [done|].
    rewrite (run_events_log dir w [(CreateTable, None); (SelectVersions, None)])
      by (by rewrite Hrun). unfold is_prologue_event. prologue_events.
  - rewrite pending_make, (Hvs Hread), pending_of_sorted.
    destruct (pending_of (versions w) ms) as [|m l] eqn:Hp; [done|exfalso].
    assert (Hm : m ∈ pending_of (versions w) ms) by (rewrite Hp; left).
    apply list_elem_of_filter in Hm as [Hnot Hm]. by apply Hnot, Hall.
Qed.

(** X6. Discovery is all or nothing for a run: when one source cannot be
    loaded, the run returns an error without executing the body of any
    migration and without inserting a row, also for the sources that could
    be read. *)
Theorem RunMigrations_load_failure dir w e :
  (LoadMigrations dir).2 = Some e ->
  (RunMigrations dir w).1 <> None /\
  rows (RunMigrations dir w).2 = rows w /\
  Forall is_prologue_event (run_events dir w).
Proof.
  intros Hload.
  destruct (RunMigrations dir w) as [r w'] eqn:Hrun. cbn [fst snd].
  pose proof Hrun as [H|(? & ? & ? & ms' & c & w3 & _ & _ & Hl & _)]
    %RunMigrations_before_loop; [done|].
  rewrite Hl in Hload. done.
Qed.

End Nothing.

Lemma RunMigrations_skips_recorded_versions_witness :
  rows (RunMigrations dir_dup world_with_1).2 = rows world_with_1 /\
  Forall is_prologue_event (run_events dir_dup world_with_1).
Proof.
  apply (RunMigrations_skips_recorded_versions dir_dup world_with_1
           [mkMigration 1 "b" add_b; mkMigration 1 "a" add_a]).
  - vm_compute. reflexivity.
  - intros m Hm. vm_compute.
    apply elem_of_cons in Hm as [->|Hm]; [left|].
    apply elem_of_cons in Hm as [->|Hm]; [left|].
    by apply elem_of_nil in Hm.
  - intros k Hk. discriminate Hk.
Defined.

Lemma RunMigrations_load_failure_witness :
  (RunMigrations dir_unreadable fresh).1 <> None /\
  rows (RunMigrations dir_unreadable fresh).2 = rows fresh /\
  Forall is_prologue_event (run_events dir_unreadable fresh).
Proof.
  apply (RunMigrations_load_failure dir_unreadable fresh
           "failed to read migration file migrations/002_b.sql: permission denied").
  vm_compute. reflexivity.
Defined.

(** ** Discovery that fails, and the order of the listing *)

Section Listing.

Context {R : Runtime}.

(** X7. When discovery fails, it returns no migration at all, and the error
    names a [.sql] source of the directory whose name parses and that
    could not be read: the message is "failed to read migration file
    migrations/<name>: <read error>". *)
Theorem LoadMigrations_read_failure dir ms e :
  LoadMigrations dir = (ms, Some e) ->
  ms = [] /\
  exists file e0,
    file ∈ dir /\ is_sql file /\ parses (file_name file) = true /\
    file_data file = ReadErr e0 /\
    e = "failed to read migration file migrations/" +:+ file_name file
          +:+ ": " +:+ e0.
Proof.
  unfold LoadMigrations.
  destruct (load_files [] (Glob dir)) as [e'|ms'] eqn:Hl; [|done].
  intros [= <- <-]. split; [done|].
  apply load_files_inl in Hl as (file & e0 & Hin & Hp & Hd & ->).
  rewrite Glob_Permutation in Hin. apply list_elem_of_filter in Hin as [Hsql Hin].
  exists file, e0. repeat (split; [done|]).
  unfold wrap. by rewrite string_app_assoc.
Qed.

(** X8. Discovery and the run do not depend on the order in which the
    directory lists its entries (whose names are pairwise distinct): the
    sources are taken in the lexical order of their names before they are
    sorted by version, so the loaded list, the discovery error and the
    whole run are the same for every listing. *)
Theorem LoadMigrations_listing_order dir dir' :
  NoDup (file_name <$> dir) ->
  dir ≡ₚ dir' ->
  LoadMigrations dir' = LoadMigrations dir /\
  forall w, RunMigrations dir' w = RunMigrations dir w.
Proof.
  intros Hnd Hperm.
  assert (Hload : LoadMigrations dir' = LoadMigrations dir).
  { unfold LoadMigrations, Glob. by rewrite (Glob_listing_order dir dir'). }
  split; [done|]. intros w. unfold RunMigrations. by rewrite Hload.
Qed.

End Listing.

Lemma LoadMigrations_read_failure_witness :
  [] = @nil Migration /\
  exists file e0,
    file ∈ dir_unreadable /\ is_sql file /\ parses (file_name file) = true /\
    file_data file = ReadErr e0 /\
    "failed to read migration file migrations/002_b.sql: permission denied" =
      "failed to read migration file migrations/" +:+ file_name file
        +:+ ": " +:+ e0.
Proof.
  apply (LoadMigrations_read_failure (R := small_db) dir_unreadable).
  vm_compute. reflexivity.
Defined.

Lemma LoadMigrations_listing_order_witness :
  LoadMigrations (R := small_db) (reverse dir123) =
    LoadMigrations (R := small_db) dir123 /\
  forall w, RunMigrations (R := small_db) (reverse dir123) w = RunMigrations dir123 w.
Proof.
  apply (LoadMigrations_listing_order dir123 (reverse dir123)).
  - apply (bool_decide_unpack _). vm_compute. exact I.
  - symmetry. apply reverse_Permutation.
Defined.

(** ** Reading the applied versions *)

Section Reading.

Context {R : Runtime}.

(** X9. [GetAppliedMigrations] only reads: the database is as before.
    When it returns an error the slice is nil. When it returns nil the
    table exists, and the slice is an initial part of the versions of its
    rows in ascending order: with the versions [rest] that were not read
    it holds each version as often as the table has rows for it. It holds
    all of them when the iteration over the rows is not cut short; a read
    that is cut short is not noticed. *)
Theorem GetAppliedMigrations_result w vs r w' :
  GetAppliedMigrations w = ((vs, r), w') ->
  table w' = table w /\ app w' = app w /\
  match r with
  | Some _ => vs = []
  | None =>
      is_Some (table w) /\
      exists rest,
        vs ++ rest ≡ₚ versions w /\
        StronglySorted Z.le (vs ++ rest) /\
        (reads_all 0 w -> rest = [])
  end.
Proof.
  intros (_ & _ & _ & Ha & Ht & Hr)%GetAppliedMigrations_spec.
  do 2 (split; [done|]).
  destruct r as [e|]; [by destruct Hr|].
  destruct Hr as (Hsome & _ & [rest Hrest] & Hall). split; [done|].
  exists rest. rewrite <- Hrest.
  split; [apply insertion_sort_Permutation|]. split.
  - pose proof (insertion_sort_keys_sorted id (versions w)) as Hs.
    by rewrite list_fmap_id in Hs.
  - intros Hread. rewrite (Hall Hread) in Hrest.
    apply (f_equal length) in Hrest. rewrite length_app in Hrest.
    apply length_zero_iff_nil. lia.
Qed.

(** X10. Without the bookkeeping table [GetAppliedMigrations] returns an
    error. Once [InitMigrationTable] has returned nil, it can fail only by
    an error of the database call itself: otherwise it returns the
    versions of the rows that were in the table before the
    initialization (none when there was no table). *)
Theorem GetAppliedMigrations_after_init w :
  (table w = None -> exists e, (GetAppliedMigrations w).1 = ([], Some e)) /\
  (forall w1,
     InitMigrationTable w = (None, w1) ->
     no_faults w1 ->
     exists vs, (GetAppliedMigrations w1).1 = (vs, None) /\ vs ≡ₚ versions w).
Proof.
  split.
  - intros Ht. destruct (GetAppliedMigrations w) as [[vs r] w'] eqn:Hg. cbn [fst].
    apply GetAppliedMigrations_spec in Hg as (_ & _ & _ & _ & _ & Hr).
    destruct r as [e|].
    + destruct Hr as [-> _]. by exists e.
    + destruct Hr as [[rs Hrs] _]. congruence.
  - intros w1 Hinit Hw1.
    apply InitMigrationTable_spec in Hinit as (_ & _ & _ & _ & Hrows & Ht & _).
    pose proof (GetAppliedMigrations_ok w1) as Hok.
    destruct (GetAppliedMigrations w1) as [[vs r] w'] eqn:Hg. cbn [fst snd] in *.
    assert (r = None) as ->.
    { apply Hok; [by rewrite Ht; eexists|by apply no_faults_head]. }
    apply GetAppliedMigrations_spec in Hg as (_ & _ & _ & _ & _ & _ & _ & _ & Hall).
    exists vs. split; [done|].
    rewrite (Hall (no_faults_reads_all 0 w1 Hw1)), insertion_sort_Permutation.
    unfold versions. by rewrite Hrows.
Qed.

End Reading.

Lemma GetAppliedMigrations_result_witness :
  table (GetAppliedMigrations world_cut_read).2 = table world_cut_read /\
  app (GetAppliedMigrations world_cut_read).2 = app world_cut_read /\
  is_Some (table world_cut_read) /\
  exists rest,
    [1] ++ rest ≡ₚ versions world_cut_read /\
    StronglySorted Z.le ([1] ++ rest) /\
    (reads_all 0 world_cut_read -> rest = []).
Proof.
  apply (GetAppliedMigrations_result world_cut_read [1] None).
  vm_compute. reflexivity.
Defined.

Lemma GetAppliedMigrations_after_init_witness :
  exists vs,
    (GetAppliedMigrations (InitMigrationTable fresh).2).1 = (vs, None) /\
    vs ≡ₚ versions fresh.
Proof.
  apply (proj2 (GetAppliedMigrations_after_init fresh)).
  - vm_compute. reflexivity.
  - constructor.
Defined.

(** ** One call of [ApplyMigration], further *)

Section ApplyFurther.

Context {R : Runtime}.

(** X11. [ApplyMigration] on a database without the bookkeeping table
    (before any [InitMigrationTable]) still runs the body first: when the
    body has executed and there is no bookkeeping table (the body did not
    create one), the insert is sent and fails, for the missing table when
    the driver does not fail, and the record error is returned. The
    migration is applied and not recorded, and no table is created. *)
Theorem ApplyMigration_without_table m w w1 :
  exec_script (SQL m) w = (None, w1) ->
  table w1 = None ->
  exists e w',
    ApplyMigration m w = (Some (record_failed m e), w') /\
    log w' = log w ++ [(RunScript (SQL m), None);
                       (InsertRecord (Version m) (Name m), Some e)] /\
    table w' = None /\ app w' = app w1 /\ stdout w' = stdout w /\
    ((forall e', head (faults w1) <> Some (Some (Fail e'))) -> e = no_such_table).
Proof.
  intros Hbody Ht1.
  pose proof (ApplyMigration_unfold m w) as Happly. rewrite Hbody in Happly.
  apply exec_script_spec in Hbody as (Hlog1 & Hout1 & _ & _).
  destruct (exec_insert (Version m) (Name m) w1) as [[e|] w2] eqn:Hins.
  - pose proof Hins as (Hlog2 & Hout2 & _ & Ha2 & Ht2)%exec_insert_spec.
    exists e, w2. split; [done|].
    split; [by rewrite Hlog2, Hlog1, <- app_assoc|].
    split; [congruence|]. split; [done|]. split; [congruence|].
    intros Hf. by eapply exec_insert_missing.
  - apply exec_insert_spec in Hins as (_ & _ & _ & _ & rs & Hrs & _). congruence.
Qed.



End ApplyFurther.

Lemma ApplyMigration_without_table_witness :
  exists e w',
    ApplyMigration probe fresh = (Some (record_failed probe e), w') /\
    log w' = log fresh ++
               [(RunScript (SQL probe), None);
                (InsertRecord (Version probe) (Name probe), Some e)] /\
    table w' = None /\ app w' = app (exec_script (SQL probe) fresh).2 /\
    stdout w' = stdout fresh /\
    ((forall e', head (faults (exec_script (SQL probe) fresh).2)
                   <> Some (Some (Fail e'))) -> e = no_such_table).
Proof.
  apply (ApplyMigration_without_table probe fresh).
  - vm_compute. reflexivity.
  - reflexivity.
Defined.



(** ** The lookup map *)

(** X13. The map built from the applied versions answers [true] exactly
    for these versions; a version that was never put in reads as [false],
    the zero value of a missing key. *)
Theorem appliedMap_lookup (appliedVersions : list Z) (version : Z) :
  is_applied (make_appliedMap appliedVersions) version = true <->
  version ∈ appliedVersions.
Proof. rewrite is_applied_make. apply bool_decide_eq_true. Qed.

(** ** Versions in names and in messages *)

(** X14. Printing and parsing a version agree: for every value [z] of the
    64-bit [int], [Atoi] reads the text that the verb [%d] prints for [z]
    back as [z]. The version shown in a message or a log line is a prefix
    that discovery accepts. *)
Theorem Atoi_Itoa z : min_int <= z <= max_int -> Atoi (Itoa z) = Some z.
Proof.
  intros Hz. unfold Itoa.
  destruct z as [|p|p]; [reflexivity|..]; cbn [Z.to_int NilZero.string_of_int];
    destruct (Itoa_pos p) as (c & s & -> & Hc & Hp).
  - by apply Atoi_unsigned.
  - by apply (Atoi_negative c s (Z.pos p)).
Qed.

Lemma Atoi_Itoa_witness : Atoi (Itoa (-42)) = Some (-42).
Proof. apply (Atoi_Itoa (-42)). unfold min_int, max_int. lia. Defined.

(** ** From a loaded migration back to its source *)

Section Sources.

Context {R : Runtime}.

(** X15. Every loaded migration comes from a source of the directory
    named "<p>_<name>.sql", where [p] has no underscore and is read by
    [Atoi] as the version, [name] is the name of the migration, and the
    content of the file is its SQL: the name of a migration is the file
    name without the version prefix and without the extension. *)
Theorem loaded_migration_source dir ms m :
  LoadMigrations dir = (ms, None) ->
  m ∈ ms ->
  exists file p,
    file ∈ dir /\
    file_name file = p +:+ "_" +:+ Name m +:+ ".sql" /\
    no_sep "_" p /\
    Atoi p = Some (Version m) /\
    file_data file = ReadOk (SQL m).
Proof.
  intros Hload Hm.
  rewrite (LoadMigrations_Permutation _ _ Hload), list_elem_of_omap in Hm.
  destruct Hm as (file & [Hsql Hfile]%list_elem_of_filter & Hmig).
  apply migration_of_Some in Hmig as (p & rest & Hcut & Hv & Hname & Hdata).
  apply cut_Some in Hcut as [Hfn Hp].
  unfold is_sql in Hsql. apply Is_true_true, HasSuffix_inv in Hsql.
  rewrite Hfn in Hsql at 1.
  apply sql_suffix_after_sep in Hsql as [n ->].
  rewrite TrimSuffix_app in Hname. subst n.
  exists file, p. by rewrite Hfn.
Qed.

End Sources.

Lemma loaded_migration_source_witness :
  exists file p,
    file ∈ dir_repo /\
    file_name file = p +:+ "_" +:+ Name add_starred_column +:+ ".sql" /\
    no_sep "_" p /\
    Atoi p = Some (Version add_starred_column) /\
    file_data file = ReadOk (SQL add_starred_column).
Proof.
  apply (loaded_migration_source (R := small_db) dir_repo [add_starred_column]).
  - vm_compute. reflexivity.
  - left.
Defined.
